(** * IMP toolchain: the bytecode interpreter and the recursive-descent parser

    A shallow embedding of [Interp::Run] (interp.cpp), of the tokens of
    lexer.h and of the [Parser] member functions (parser.cpp), followed by
    the properties of the calling convention, of the binary operators and
    of the expression and block grammar. *)

From Stdlib Require Import ZArith String List Bool Lia.
From Stdlib Require Import Strings.Byte.
Import ListNotations.

Set Warnings "-register-all".

Local Open Scope Z_scope.

(* ================================================================== *)
(** * Part I: the virtual machine *)
(* ================================================================== *)

Module VM.

(** ** Machine integers *)

Definition two64 : Z := 2 ^ 64.
Definition INT64_MIN : Z := - 2 ^ 63.
Definition INT64_MAX : Z := 2 ^ 63 - 1.

(** [uint64_t(x)]: conversion to the unsigned 64-bit type. *)
Definition to_uint64 (x : Z) : Z := x mod two64.

(** Conversion of a value to [int64_t]: two's complement. *)
Definition to_int64 (x : Z) : Z :=
  let u := x mod two64 in
  if u <? 2 ^ 63 then u else u - two64.

Definition in_int64 (x : Z) : Prop := INT64_MIN <= x <= INT64_MAX.

(** ** Values (the tagged union of interp.h, as the spec describes it) *)

(** Modelled from the spec: [Value] of interp.h, a tagged union with the
    variants Integer, Address and NativeReference.  A native reference is
    the handle of the bound callable. *)
Inductive Value : Type :=
  | INT (Int : Z)
  | ADDR (Addr : Z)
  | PROTO (Proto : Z).

(** ** Opcodes *)

Inductive Opcode : Type :=
  | PUSH_FUNC | PUSH_PROTO | PUSH_INT | PEEK | POP | CALL
  | ADD | SUB | MUL | DIV | MOD
  | DEQ | NEQ | SM | SMEQ | GR | GREQ
  | RET | JUMP_FALSE | JUMP | STOP.

(** ** Results of a computation of the interpreter *)

Inductive Exception : Type :=
  | RuntimeError (msg : string)
  | LengthError.

(** [Undefined] stands for behaviour the C++ source leaves undefined: a read
    past the bytecode buffer, an iterator past the stack, an integer
    division by zero or of [INT64_MIN] by [-1]. *)
Inductive Res (A : Type) : Type :=
  | Ok (a : A)
  | Throw (e : Exception)
  | Undefined.

Arguments Ok {A} a.
Arguments Throw {A} e.
Arguments Undefined {A}.

(** ** Interpreter state: [pc_] and [stack_].  The head of the list is the
    back of the vector, that is the top of the stack. *)

Record Interp : Type := mkInterp {
  pc_ : Z;
  stack_ : list Value
}.

(** A computation over the interpreter state that may throw. *)
Definition M (A : Type) : Type := Interp -> Res (A * Interp).

Definition ret {A} (a : A) : M A := fun s => Ok (a, s).

Definition bind {A B} (m : M A) (k : A -> M B) : M B :=
  fun s =>
    match m s with
    | Ok (a, s') => k a s'
    | Throw e => Throw e
    | Undefined => Undefined
    end.

Definition throw {A} (e : Exception) : M A := fun _ => Throw e.
Definition undefined {A} : M A := fun _ => Undefined.

Declare Scope vm_scope.
Delimit Scope vm_scope with vm.
Notation "x <- m ;; k" := (bind m (fun x => k))
  (at level 61, m at next level, right associativity) : vm_scope.
Notation "m ;; k" := (bind m (fun _ => k))
  (at level 61, right associativity) : vm_scope.
Local Open Scope vm_scope.

Definition get_pc : M Z := fun s => Ok (pc_ s, s).
Definition set_pc (pc : Z) : M unit := fun s => Ok (tt, mkInterp pc (stack_ s)).
Definition get_stack : M (list Value) := fun s => Ok (stack_ s, s).
Definition set_stack (st : list Value) : M unit :=
  fun s => Ok (tt, mkInterp (pc_ s) st).

(** ** The target: what program.h, interp.h and the platform fix *)

(** Sizes of the immediates, the value of a run of bytes (the byte order),
    the numbering of the opcodes, the truth value of a value that is not an
    integer, and the native callables. *)
Record Target : Type := mkTarget {
  sizeof_Opcode : nat;
  sizeof_size_t : nat;
  sizeof_unsigned : nat;
  sizeof_int64_t : nat;
  sizeof_RuntimeFn : nat;
  value_of : list byte -> Z;
  opcode_of : Z -> option Opcode;
  truth_of_ADDR : Z -> bool;
  truth_of_PROTO : Z -> bool;
  native : Z -> Interp -> Res Interp
}.

(** ** The program: a flat byte buffer *)

Definition Program : Type := list byte.

(** Modelled from the spec: [Program::Read<T>] of program.h, the only decoding
    primitive: copy [size] bytes out at the counter and advance the counter
    past them.  A read that overruns the buffer is undefined behaviour. *)
Definition Read (T : Target) (prog : Program) (size : nat) : M Z :=
  pc <- get_pc ;;
  if (0 <=? pc) && (pc + Z.of_nat size <=? Z.of_nat (length prog)) then
    set_pc (pc + Z.of_nat size) ;;
    ret (value_of T (firstn size (skipn (Z.to_nat pc) prog)))
  else undefined.

(** ** Stack primitives *)

(** Modelled from the spec: [Interp::Push] of interp.h. *)
Definition Push (v : Value) : M unit :=
  st <- get_stack ;; set_stack (v :: st).

(** Modelled from the spec: [Interp::Pop] of interp.h, which removes the top
    value and returns it.  The spec says nothing of a pop from an empty
    stack: it is left undefined. *)
Definition Pop : M Value :=
  st <- get_stack ;;
  match st with
  | [] => undefined
  | v :: st' => set_stack st' ;; ret v
  end.

(** Modelled from the spec: [Interp::PopInt] of interp.h; arithmetic and
    comparisons require an Integer, any other kind is a fatal type error
    (an operand type mismatch; the spec does not give its text). *)
Definition PopInt : M Z :=
  v <- Pop ;;
  match v with
  | INT i => ret i
  | _ => throw (RuntimeError "operand type mismatch")
  end.

(** Modelled from the spec: [Interp::PopAddr] of interp.h; the value popped
    as a return address must be an Address, any other kind is an operand
    type mismatch. *)
Definition PopAddr : M Z :=
  v <- Pop ;;
  match v with
  | ADDR a => ret a
  | _ => throw (RuntimeError "operand type mismatch")
  end.

(** [stack_.resize(stack_.size() - n)] for an unsigned [n]: the difference is
    computed in [size_t]; when [n] exceeds the size it wraps to a length no
    vector can have and [resize] throws [std::length_error]. *)
Definition shrink (n : Z) : M unit :=
  st <- get_stack ;;
  if n <=? Z.of_nat (length st) then set_stack (skipn (Z.to_nat n) st)
  else throw LengthError.

(** Modelled from the spec: [Value::operator bool] of interp.h; an Integer is
    false exactly when it is zero, the other kinds are left to the target. *)
Definition truth (T : Target) (v : Value) : bool :=
  match v with
  | INT i => negb (i =? 0)
  | ADDR a => truth_of_ADDR T a
  | PROTO p => truth_of_PROTO T p
  end.

(** ** Arithmetic of the binary operators, as written in [Interp::Run] *)

(** The condition of the [if] in the ADD and SUB cases. *)
Definition overflow_test (rhs lhs result : Z) : bool :=
  ((rhs <? 0) && (lhs <? 0) && (result >? 0))
  || ((rhs >? 0) && (lhs >? 0) && (result <? 0)).

(** [int64_t result = uint64_t(rhs) + uint64_t(lhs);] *)
Definition add_result (rhs lhs : Z) : Z :=
  to_int64 ((to_uint64 rhs + to_uint64 lhs) mod two64).

(** [int64_t result = lhs - rhs;] in two's complement. *)
Definition sub_result (rhs lhs : Z) : Z := to_int64 (lhs - rhs).

(** [int64_t result = lhs * rhs;] in two's complement. *)
Definition mul_result (rhs lhs : Z) : Z := to_int64 (lhs * rhs).

(** [lhs / rhs] and [lhs % rhs] on [int64_t] truncate towards zero; a zero
    divisor and [INT64_MIN / -1] have no result. *)
Definition div_faults (rhs lhs : Z) : bool :=
  (rhs =? 0) || ((lhs =? INT64_MIN) && (rhs =? -1)).

Definition bool_result (b : bool) : Z := if b then 1 else 0.

(** The temporary [RuntimeError] the ADD and SUB cases construct when the
    test holds.  It is built and destroyed; it is not thrown. *)
Definition overflow_diagnostic (rhs lhs result : Z) : option Exception :=
  if overflow_test rhs lhs result
  then Some (RuntimeError "overflow in sum for values")
  else None.

(** ** One iteration of the loop of [Interp::Run] *)

Inductive Control : Type := Continue | Return.

Section Run.

Variable T : Target.
Variable prog_ : Program.

Definition exec (op : Opcode) : M Control :=
  match op with
  | PUSH_FUNC =>
      a <- Read T prog_ (sizeof_size_t T) ;;
      Push (ADDR a) ;; ret Continue
  | PUSH_PROTO =>
      f <- Read T prog_ (sizeof_RuntimeFn T) ;;
      Push (PROTO f) ;; ret Continue
  | PUSH_INT =>
      val <- Read T prog_ (sizeof_int64_t T) ;;
      Push (INT (to_int64 val)) ;; ret Continue
  | PEEK =>
      idx <- Read T prog_ (sizeof_unsigned T) ;;
      st <- get_stack ;;
      match nth_error st (Z.to_nat idx) with
      | Some v => Push v ;; ret Continue
      | None => undefined
      end
  | POP =>
      Pop ;; ret Continue
  | CALL =>
      callee <- Pop ;;
      match callee with
      | PROTO f =>
          (fun s => match native T f s with
                    | Ok s' => Ok (Continue, s')
                    | Throw e => Throw e
                    | Undefined => Undefined
                    end)
      | ADDR a =>
          pc <- get_pc ;;
          Push (ADDR pc) ;;
          set_pc a ;;
          ret Continue
      | INT _ =>
          throw (RuntimeError "cannot call integer")
      end
  | ADD =>
      rhs <- PopInt ;;
      lhs <- PopInt ;;
      let result := add_result rhs lhs in
      let _ := overflow_diagnostic rhs lhs result in
      Push (INT result) ;; ret Continue
  | SUB =>
      rhs <- PopInt ;;
      lhs <- PopInt ;;
      let result := sub_result rhs lhs in
      let _ := overflow_diagnostic rhs lhs result in
      Push (INT result) ;; ret Continue
  | MUL =>
      rhs <- PopInt ;;
      lhs <- PopInt ;;
      let result := mul_result rhs lhs in
      Push (INT result) ;; ret Continue
  | DIV =>
      rhs <- PopInt ;;
      lhs <- PopInt ;;
      if div_faults rhs lhs then undefined
      else
        let result := Z.quot lhs rhs in
        Push (INT result) ;; ret Continue
  | MOD =>
      rhs <- PopInt ;;
      lhs <- PopInt ;;
      if div_faults rhs lhs then undefined
      else
        let result := Z.rem lhs rhs in
        Push (INT result) ;; ret Continue
  | DEQ =>
      rhs <- PopInt ;;
      lhs <- PopInt ;;
      let result := bool_result (lhs =? rhs) in
      Push (INT result) ;; ret Continue
  | NEQ =>
      rhs <- PopInt ;;
      lhs <- PopInt ;;
      let result := bool_result (negb (lhs =? rhs)) in
      Push (INT result) ;; ret Continue
  | SM =>
      rhs <- PopInt ;;
      lhs <- PopInt ;;
      let result := bool_result (lhs <? rhs) in
      Push (INT result) ;; ret Continue
  | SMEQ =>
      rhs <- PopInt ;;
      lhs <- PopInt ;;
      let result := bool_result (lhs <=? rhs) in
      Push (INT result) ;; ret Continue
  | GR =>
      rhs <- PopInt ;;
      lhs <- PopInt ;;
      let result := bool_result (lhs >? rhs) in
      Push (INT result) ;; ret Continue
  | GREQ =>
      rhs <- PopInt ;;
      lhs <- PopInt ;;
      let result := bool_result (lhs >=? rhs) in
      Push (INT result) ;; ret Continue
  | RET =>
      depth <- Read T prog_ (sizeof_unsigned T) ;;
      nargs <- Read T prog_ (sizeof_unsigned T) ;;
      v <- Pop ;;
      shrink depth ;;
      a <- PopAddr ;;
      set_pc a ;;
      shrink nargs ;;
      Push v ;; ret Continue
  | JUMP_FALSE =>
      cond <- Pop ;;
      addr <- Read T prog_ (sizeof_size_t T) ;;
      (if negb (truth T cond) then set_pc addr else ret tt) ;;
      ret Continue
  | JUMP =>
      addr <- Read T prog_ (sizeof_size_t T) ;;
      set_pc addr ;; ret Continue
  | STOP =>
      ret Return
  end.

(** Fetch, decode, execute.  A byte pattern that names no opcode matches no
    case of the [switch]: the loop goes on at the next offset. *)
Definition step : M Control :=
  op <- Read T prog_ (sizeof_Opcode T) ;;
  match opcode_of T op with
  | Some o => exec o
  | None => ret Continue
  end.

(** [Interp::Run]: the loop, cut off after [fuel] iterations ([None]). *)
Fixpoint Run (fuel : nat) (s : Interp) : option (Res Interp) :=
  match fuel with
  | O => None
  | S fuel' =>
      match step s with
      | Ok (Continue, s') => Run fuel' s'
      | Ok (Return, s') => Some (Ok s')
      | Throw e => Some (Throw e)
      | Undefined => Some Undefined
      end
  end.

End Run.

End VM.

(* ================================================================== *)
(** * Part II: tokens, syntax trees and the parser *)
(* ================================================================== *)

Module Parse.

Local Open Scope string_scope.
Local Open Scope list_scope.

(** ** Tokens (class [Token] of lexer.h) *)

Record Location : Type := mkLocation {
  Name : string;
  Line : Z;
  Column : Z
}.

Inductive Kind : Type :=
  | FUNC | RETURN | WHILE | IF | ELSE
  | LPAREN | RPAREN | LBRACE | RBRACE | COLON | SEMI | EQUAL | COMMA
  | PLUS | MINUS | MULTIPLY | DIVIDE | MODULO
  | DOUBLE_EQUAL | NOT_EQUAL | GREATER | GREATER_OR_EQUAL
  | SMALLER | SMALLER_OR_EQUAL
  | INT | STRING | IDENT | END.

Definition Kind_eq_dec (a b : Kind) : {a = b} + {a <> b}.
Proof. decide equality. Defined.

(** The union [value_]. *)
Inductive Payload : Type :=
  | NoValue
  | IntValue (n : Z)
  | StringValue (s : string).

Record Token : Type := mkToken {
  loc_ : Location;
  kind_ : Kind;
  value_ : Payload
}.

Definition GetKind (tk : Token) : Kind := kind_ tk.
Definition GetLocation (tk : Token) : Location := loc_ tk.

Definition Is (tk : Token) (kind : Kind) : bool :=
  if Kind_eq_dec (GetKind tk) kind then true else false.

(** [Token::operator bool]: a token is true if it is not EOF. *)
Definition Token_bool (tk : Token) : bool :=
  if Kind_eq_dec (GetKind tk) END then false else true.

(** The builders the parser's inputs are made of. *)
Definition Tok (l : Location) (k : Kind) : Token := mkToken l k NoValue.
Definition Ident (l : Location) (str : string) : Token :=
  mkToken l IDENT (StringValue str).
Definition String (l : Location) (str : string) : Token :=
  mkToken l STRING (StringValue str).
Definition Int (l : Location) (integer : Z) : Token :=
  mkToken l INT (IntValue integer).
Definition End (l : Location) : Token := Tok l END.

(** ** Syntax trees *)

Inductive BinaryKind : Type :=
  | ADD | SUB | MUL | DIV | MOD | DEQ | NEQ | SM | SMEQ | GR | GREQ.

(** Modelled from the spec: the expression nodes of ast.h. *)
Inductive Expr : Type :=
  | RefExpr (name : string)
  | IntExpr (value : Z)
  | CallExpr (callee : Expr) (args : list Expr)
  | BinaryExpr (kind : BinaryKind) (lhs rhs : Expr).

(** Modelled from the spec: the statement nodes of ast.h; the else branch of
    an [IfStmt] is optional. *)
Inductive Stmt : Type :=
  | ExprStmt (expr : Expr)
  | ReturnStmt (expr : Expr)
  | WhileStmt (cond : Expr) (body : Stmt)
  | IfStmt (cond : Expr) (stmt : Stmt) (elseStmt : option Stmt)
  | BlockStmt (body : list Stmt).

(** Modelled from the spec: the top-level items and [Module] of ast.h. *)
Inductive TopLevelStmt : Type :=
  | TopStmt (s : Stmt)
  | FuncDecl (name : string) (args : list (string * string))
             (type : string) (body : Stmt)
  | ProtoDecl (name : string) (args : list (string * string))
              (type : string) (primitive : string).

Record Module_ : Type := mkModule { module_body : list TopLevelStmt }.

(** ** Results of the parser *)

Inductive Expectation : Type :=
  | ExpectingKind (kind : Kind)
  | ExpectingTerm.

(** The text of a parser error: "unexpected <tk>, expecting <what>". *)
Record Message : Type := Unexpected {
  unexpected : Token;
  expecting : Expectation
}.

Inductive Result (A : Type) : Type :=
  | Ok (a : A)
  | ParserError (loc : Location) (msg : Message)
  | AssertionFailed (what : string)
  | OutOfFuel.

Arguments Ok {A} a.
Arguments ParserError {A} loc msg.
Arguments AssertionFailed {A} what.
Arguments OutOfFuel {A}.

(** ** The lexer, by its output: the current token and the tokens to come *)

Record Lexer : Type := mkLexer {
  tk_ : Token;
  input : list Token
}.

(** Modelled from the spec: [Lexer::Next] of lexer.cpp, which advances past
    the current token; at the end of the input the current token is EOF and
    stays EOF. *)
Definition advance (lx : Lexer) : Lexer :=
  match input lx with
  | tk :: rest => mkLexer tk rest
  | [] => mkLexer (End (loc_ (tk_ lx))) []
  end.

(** A lexer whose current token is the first token of a token list. *)
Definition lexer_of (eof : Location) (tks : list Token) : Lexer :=
  match tks with
  | tk :: rest => mkLexer tk rest
  | [] => mkLexer (End eof) []
  end.

(** ** The parser monad: the lexer is the state, errors are final *)

Definition P (A : Type) : Type := Lexer -> Result (A * Lexer).

Definition ret {A} (a : A) : P A := fun lx => Ok (a, lx).

Definition bind {A B} (m : P A) (k : A -> P B) : P B :=
  fun lx =>
    match m lx with
    | Ok (a, lx') => k a lx'
    | ParserError loc msg => ParserError loc msg
    | AssertionFailed what => AssertionFailed what
    | OutOfFuel => OutOfFuel
    end.

Declare Scope parse_scope.
Delimit Scope parse_scope with parse.
Notation "x <- m ;; k" := (bind m (fun x => k))
  (at level 61, m at next level, right associativity) : parse_scope.
Notation "m ;; k" := (bind m (fun _ => k))
  (at level 61, right associativity) : parse_scope.
Local Open Scope parse_scope.

Definition out_of_fuel {A} : P A := fun _ => OutOfFuel.

(** [lexer_.Next()] *)
Definition Next : P Token :=
  fun lx => let lx' := advance lx in Ok (tk_ lx', lx').

(** Modelled from the spec: [Parser::Current] of parser.h, the buffered
    lookahead token. *)
Definition Current : P Token := fun lx => Ok (tk_ lx, lx).

(** [Parser::Error] *)
Definition Error {A} (loc : Location) (msg : Message) : P A :=
  fun _ => ParserError loc msg.

(** [Parser::Check] *)
Definition Check (kind : Kind) : P Token :=
  tk <- Current ;;
  if Kind_eq_dec kind (GetKind tk) then ret tk
  else Error (GetLocation tk) (Unexpected tk (ExpectingKind kind)).

(** [Parser::Expect] *)
Definition Expect (kind : Kind) : P Token :=
  Next ;; Check kind.

(** [Token::GetIdent], [Token::GetInt], [Token::GetString] with their
    assertions. *)
Definition GetIdent (tk : Token) : P string :=
  match Is tk IDENT, value_ tk with
  | true, StringValue s => ret s
  | _, _ => fun _ => AssertionFailed "not an identifier"
  end.

Definition GetInt (tk : Token) : P Z :=
  match Is tk INT, value_ tk with
  | true, IntValue n => ret n
  | _, _ => fun _ => AssertionFailed "not an identifier"
  end.

Definition GetString (tk : Token) : P string :=
  match Is tk STRING, value_ tk with
  | true, StringValue s => ret s
  | _, _ => fun _ => AssertionFailed "not an identifier"
  end.

(** ** Expressions *)

Section Expressions.

(** The call [ParseExpr()] made from inside an expression. *)
Variable ParseExpr : P Expr.

Definition ParseTermExpr : P Expr :=
  tk <- Current ;;
  match GetKind tk with
  | IDENT =>
      ident <- GetIdent tk ;;
      Next ;;
      ret (RefExpr ident)
  | INT =>
      integer <- GetInt tk ;;
      Next ;;
      ret (IntExpr integer)
  | LPAREN =>
      Next ;;
      expr <- ParseExpr ;;
      Check RPAREN ;;
      Next ;;
      ret expr
  | _ => Error (GetLocation tk) (Unexpected tk ExpectingTerm)
  end.

(** The inner loop of [ParseCallExpr]: the argument list. *)
Fixpoint ParseCallExpr_args (fuel : nat) (args : list Expr) : P (list Expr) :=
  match fuel with
  | O => out_of_fuel
  | S fuel' =>
      nx <- Next ;;
      if Is nx RPAREN then ret args
      else
        e <- ParseExpr ;;
        let args := args ++ [e] in
        tk <- Current ;;
        if negb (Is tk COMMA) then ret args
        else ParseCallExpr_args fuel' args
  end.

(** The outer loop of [ParseCallExpr]: chained argument lists. *)
Fixpoint ParseCallExpr_loop (fuel : nat) (callee : Expr) : P Expr :=
  match fuel with
  | O => out_of_fuel
  | S fuel' =>
      tk <- Current ;;
      if Is tk LPAREN then
        args <- ParseCallExpr_args fuel' [] ;;
        Check RPAREN ;;
        Next ;;
        ParseCallExpr_loop fuel' (CallExpr callee args)
      else ret callee
  end.

Definition ParseCallExpr (fuel : nat) : P Expr :=
  callee <- ParseTermExpr ;;
  ParseCallExpr_loop fuel callee.

Fixpoint ParseMulDivExpr_loop (fuel : nat) (term : Expr) : P Expr :=
  match fuel with
  | O => out_of_fuel
  | S fuel' =>
      tk <- Current ;;
      if Is tk MULTIPLY || Is tk DIVIDE || Is tk MODULO then
        Next ;;
        rhs <- ParseCallExpr fuel' ;;
        ParseMulDivExpr_loop fuel'
          (BinaryExpr (if Is tk MULTIPLY then MUL
                       else if Is tk DIVIDE then DIV else MOD) term rhs)
      else ret term
  end.

Definition ParseMulDivExpr (fuel : nat) : P Expr :=
  term <- ParseCallExpr fuel ;;
  ParseMulDivExpr_loop fuel term.

Fixpoint ParseAddSubExpr_loop (fuel : nat) (term : Expr) : P Expr :=
  match fuel with
  | O => out_of_fuel
  | S fuel' =>
      tk <- Current ;;
      if Is tk PLUS || Is tk MINUS then
        Next ;;
        rhs <- ParseMulDivExpr fuel' ;;
        ParseAddSubExpr_loop fuel'
          (BinaryExpr (if Is tk PLUS then ADD else SUB) term rhs)
      else ret term
  end.

Definition ParseAddSubExpr (fuel : nat) : P Expr :=
  term <- ParseMulDivExpr fuel ;;
  ParseAddSubExpr_loop fuel term.

Fixpoint ParseCompExpr_loop (fuel : nat) (term : Expr) : P Expr :=
  match fuel with
  | O => out_of_fuel
  | S fuel' =>
      tk <- Current ;;
      if Is tk DOUBLE_EQUAL || Is tk NOT_EQUAL || Is tk SMALLER
         || Is tk SMALLER_OR_EQUAL || Is tk GREATER || Is tk GREATER_OR_EQUAL
      then
        Next ;;
        rhs <- ParseAddSubExpr fuel' ;;
        ParseCompExpr_loop fuel'
          (BinaryExpr
             (if Is tk DOUBLE_EQUAL then DEQ
              else if Is tk NOT_EQUAL then NEQ
              else if Is tk SMALLER then SM
              else if Is tk SMALLER_OR_EQUAL then SMEQ
              else if Is tk GREATER then GR else GREQ) term rhs)
      else ret term
  end.

Definition ParseCompExpr (fuel : nat) : P Expr :=
  term <- ParseAddSubExpr fuel ;;
  ParseCompExpr_loop fuel term.

End Expressions.

(** Modelled from the spec: [Parser::ParseExpr] of parser.h, the entry to the
    loosest expression level, comparison.  [fuel] bounds the nesting of
    expressions and the iterations of each loop. *)
Fixpoint ParseExpr (fuel : nat) : P Expr :=
  match fuel with
  | O => out_of_fuel
  | S fuel' => ParseCompExpr (ParseExpr fuel') fuel'
  end.

(** ** Statements *)

Section Statements.

(** The calls [ParseExpr()] and [ParseStmt()] made from inside a statement. *)
Variable ParseExpr : P Expr.
Variable ParseStmt : P Stmt.

(** The loop of [ParseBlockStmt]. *)
Fixpoint ParseBlockStmt_loop (fuel : nat) (body : list Stmt)
  : P (list Stmt) :=
  match fuel with
  | O => out_of_fuel
  | S fuel' =>
      nx <- Next ;;
      if Is nx RBRACE then ret body
      else
        s <- ParseStmt ;;
        let body := body ++ [s] in
        tk <- Current ;;
        if negb (Is tk SEMI) then ret body
        else ParseBlockStmt_loop fuel' body
  end.

Definition ParseBlockStmt (fuel : nat) : P Stmt :=
  Check LBRACE ;;
  body <- ParseBlockStmt_loop fuel [] ;;
  Check RBRACE ;;
  Next ;;
  ret (BlockStmt body).

Definition ParseReturnStmt : P Stmt :=
  Check RETURN ;;
  Next ;;
  expr <- ParseExpr ;;
  ret (ReturnStmt expr).

Definition ParseWhileStmt : P Stmt :=
  Check WHILE ;;
  Expect LPAREN ;;
  Next ;;
  cond <- ParseExpr ;;
  Check RPAREN ;;
  Next ;;
  stmt <- ParseStmt ;;
  ret (WhileStmt cond stmt).

Definition ParseIfStmt : P Stmt :=
  Check IF ;;
  Expect LPAREN ;;
  Next ;;
  cond <- ParseExpr ;;
  Check RPAREN ;;
  Next ;;
  stmt <- ParseStmt ;;
  tk <- Current ;;
  if Is tk ELSE then
    Next ;;
    elseStmt <- ParseStmt ;;
    ret (IfStmt cond stmt (Some elseStmt))
  else ret (IfStmt cond stmt None).

End Statements.

(** [Parser::ParseStmt]; [fuel] bounds the nesting of statements and
    expressions and the iterations of each loop. *)
Fixpoint ParseStmt (fuel : nat) : P Stmt :=
  match fuel with
  | O => out_of_fuel
  | S fuel' =>
      tk <- Current ;;
      match GetKind tk with
      | RETURN => ParseReturnStmt (ParseExpr fuel')
      | WHILE => ParseWhileStmt (ParseExpr fuel') (ParseStmt fuel')
      | LBRACE => ParseBlockStmt (ParseStmt fuel') fuel'
      | IF => ParseIfStmt (ParseExpr fuel') (ParseStmt fuel')
      | _ => expr <- ParseExpr fuel' ;; ret (ExprStmt expr)
      end
  end.

(** ** Modules *)

(** The parameter list of a function item. *)
Fixpoint ParseModule_args (fuel : nat) (args : list (string * string))
  : P (list (string * string)) :=
  match fuel with
  | O => out_of_fuel
  | S fuel' =>
      nx <- Next ;;
      if Is nx RPAREN then ret args
      else
        tk <- Current ;;
        arg <- GetIdent tk ;;
        Expect COLON ;;
        tkt <- Expect IDENT ;;
        type <- GetIdent tkt ;;
        let args := args ++ [(arg, type)] in
        nx' <- Next ;;
        if negb (Is nx' COMMA) then ret args
        else ParseModule_args fuel' args
  end.

(** The loop of [ParseModule]. *)
Fixpoint ParseModule_loop (fuel : nat) (body : list TopLevelStmt)
  : P (list TopLevelStmt) :=
  match fuel with
  | O => out_of_fuel
  | S fuel' =>
      tk <- Current ;;
      if Token_bool tk then
        if Is tk FUNC then
          tkn <- Expect IDENT ;;
          name <- GetIdent tkn ;;
          Expect LPAREN ;;
          args <- ParseModule_args fuel' [] ;;
          Check RPAREN ;;
          Expect COLON ;;
          tkt <- Expect IDENT ;;
          type <- GetIdent tkt ;;
          nx <- Next ;;
          if Is nx EQUAL then
            tks <- Expect STRING ;;
            primitive <- GetString tks ;;
            Next ;;
            ParseModule_loop fuel'
              (body ++ [ProtoDecl name args type primitive])
          else
            block <- ParseBlockStmt (ParseStmt fuel') fuel' ;;
            ParseModule_loop fuel' (body ++ [FuncDecl name args type block])
        else
          s <- ParseStmt fuel' ;;
          ParseModule_loop fuel' (body ++ [TopStmt s])
      else ret body
  end.

Definition ParseModule_fuel (fuel : nat) : P Module_ :=
  body <- ParseModule_loop fuel [] ;;
  ret (mkModule body).

(** ** Entry points with the cut-off taken from the input

    Every successful step of a parser function consumes a token, so a
    cut-off a few steps above the number of tokens left is never reached
    (see [ParseModule_terminates] and its siblings). *)

(** The tokens left to consume: those to come, and the current one unless
    it is EOF. *)
Definition remaining (lx : Lexer) : nat :=
  List.length (input lx) + (if Token_bool (tk_ lx) then 1 else 0).

Definition fuel_of (lx : Lexer) : nat := 4 + remaining lx.

Definition ParseModule : P Module_ :=
  fun lx => ParseModule_fuel (fuel_of lx) lx.

Definition ParseStmt_ : P Stmt := fun lx => ParseStmt (fuel_of lx) lx.

Definition ParseBlockStmt_ : P Stmt :=
  fun lx => ParseBlockStmt (ParseStmt (fuel_of lx)) (fuel_of lx) lx.

Definition ParseExpr_ : P Expr := fun lx => ParseExpr (fuel_of lx) lx.

Definition ParseCallExpr_ : P Expr :=
  fun lx => ParseCallExpr (ParseExpr (fuel_of lx)) (fuel_of lx) lx.

Definition ParseAddSubExpr_ : P Expr :=
  fun lx => ParseAddSubExpr (ParseExpr (fuel_of lx)) (fuel_of lx) lx.

(** ** The order of the cut-off

    [below r r']: the result [r] is [r'] or is the cut-off.  Parsers are
    compared pointwise. *)

Definition below {A} (r r' : Result A) : Prop := r = OutOfFuel \/ r = r'.

Definition approx {A} (p q : P A) : Prop := forall lx, below (p lx) (q lx).

(** [ok p lx Q]: from [lx] the parser [p] ends before the cut-off, with an
    error or with a value and a lexer that satisfy [Q]. *)
Definition ok {A} (p : P A) (lx : Lexer) (Q : A -> Lexer -> Prop) : Prop :=
  match p lx with
  | Ok (a, lx') => Q a lx'
  | OutOfFuel => False
  | _ => True
  end.

(** Postconditions on the tokens left. *)
Definition consumes {A} (lx : Lexer) : A -> Lexer -> Prop :=
  fun _ lx' => (remaining lx' < remaining lx)%nat.

Definition keeps {A} (lx : Lexer) : A -> Lexer -> Prop :=
  fun _ lx' => (remaining lx' <= remaining lx)%nat.

End Parse.

(* ================================================================== *)
(** * Part III: a concrete target and an assembler for examples *)
(* ================================================================== *)

Module X86_64.

Import VM.

(** Enumerators numbered in the order of the opcode table, which is the
    order of the cases of [Interp::Run]. *)
Definition opcodes : list Opcode :=
  [PUSH_FUNC; PUSH_PROTO; PUSH_INT; PEEK; POP; CALL;
   ADD; SUB; MUL; DIV; MOD; DEQ; NEQ; SM; SMEQ; GR; GREQ;
   RET; JUMP_FALSE; JUMP; STOP].

Definition opcode_of (n : Z) : option Opcode :=
  if n <? 0 then None else nth_error opcodes (Z.to_nat n).

(** Little-endian value of a run of bytes. *)
Fixpoint le_value (bs : list byte) : Z :=
  match bs with
  | [] => 0
  | b :: bs' => Z.of_N (Byte.to_N b) + 256 * le_value bs'
  end.

(** One-byte opcodes, LP64 immediates, least significant byte first; every
    address and every native reference is true; the native callables
    leave the state alone. *)
Definition target : Target :=
  mkTarget 1 8 4 8 8 le_value opcode_of (fun _ => true) (fun _ => true)
           (fun _ s => Ok s).

Definition byte_of (n : Z) : byte :=
  match Byte.of_N (Z.to_N (n mod 256)) with
  | Some b => b
  | None => x00
  end.

(** [size] bytes of [v], least significant first. *)
Fixpoint encode (size : nat) (v : Z) : list byte :=
  match size with
  | O => []
  | S size' => byte_of v :: encode size' (v / 256)
  end.

Definition op (n : Z) : list byte := encode 1 n.
Definition u32 (v : Z) : list byte := encode 4 v.
Definition u64 (v : Z) : list byte := encode 8 v.

End X86_64.

(* ================================================================== *)
(** * Part IV: what the specification says, in its own words *)
(* ================================================================== *)

Module Spec.

Import VM.

(** The immediate of [size] bytes found at an offset of the program, if it
    lies inside the buffer. *)
Definition imm_at (T : Target) (prog : Program) (pc : Z) (size : nat)
  : option Z :=
  if (0 <=? pc) && (pc + Z.of_nat size <=? Z.of_nat (List.length prog))
  then Some (value_of T (firstn size (skipn (Z.to_nat pc) prog)))
  else None.

(** The opcode found at an offset, if the bytes there name one. *)
Definition opcode_at (T : Target) (prog : Program) (pc : Z) : option Opcode :=
  match imm_at T prog pc (sizeof_Opcode T) with
  | Some n => opcode_of T n
  | None => None
  end.

(** The arithmetic and comparison opcodes. *)
Definition is_binary (o : Opcode) : bool :=
  match o with
  | ADD | SUB | MUL | DIV | MOD | DEQ | NEQ | SM | SMEQ | GR | GREQ => true
  | _ => false
  end.

(** [lhs <op> rhs] as the opcode table gives it: the value of the operator
    on signed 64-bit integers, none where the division has no value. *)
Definition binop (o : Opcode) (lhs rhs : Z) : option Z :=
  match o with
  | ADD => Some (to_int64 (lhs + rhs))
  | SUB => Some (to_int64 (lhs - rhs))
  | MUL => Some (to_int64 (lhs * rhs))
  | DIV => if (rhs =? 0) || ((lhs =? INT64_MIN) && (rhs =? -1)) then None
           else Some (Z.quot lhs rhs)
  | MOD => if (rhs =? 0) || ((lhs =? INT64_MIN) && (rhs =? -1)) then None
           else Some (Z.rem lhs rhs)
  | DEQ => Some (if lhs =? rhs then 1 else 0)
  | NEQ => Some (if lhs =? rhs then 0 else 1)
  | SM => Some (if lhs <? rhs then 1 else 0)
  | SMEQ => Some (if lhs <=? rhs then 1 else 0)
  | GR => Some (if rhs <? lhs then 1 else 0)
  | GREQ => Some (if rhs <=? lhs then 1 else 0)
  | _ => None
  end.

(** The outcome of a native call, seen from the loop. *)
Definition after_native (r : Res Interp) : Res (Control * Interp) :=
  match r with
  | Ok s => Ok (Continue, s)
  | Throw e => Throw e
  | Undefined => Undefined
  end.

Definition height (s : Interp) : Z := Z.of_nat (List.length (stack_ s)).

End Spec.

(* ================================================================== *)
(** * Part V: example programs, states and token streams *)
(* ================================================================== *)

Module Examples.

Import X86_64.
Local Open Scope string_scope.
Local Open Scope list_scope.

(** [RET(depth=1, nargs=2)] at offset 0. *)
Definition ret_prog : VM.Program := op 17 ++ u32 1 ++ u32 2.

(** A frame at the point of return, from the top: the return value, one
    local, the return address, two arguments, and one slot of the caller. *)
Definition ret_state : VM.Interp :=
  VM.mkInterp 0
    [VM.INT 42; VM.INT 5; VM.ADDR 100; VM.INT 1; VM.INT 2; VM.INT 9].

(** A single opcode at offset 0. *)
Definition call_prog : VM.Program := op 5.
Definition sub_prog : VM.Program := op 7.
Definition div_prog : VM.Program := op 9.

(** [JUMP_FALSE(64)] at offset 0. *)
Definition jump_false_prog : VM.Program := op 18 ++ u64 64.

(** Token streams.  Every token of an example sits at its own column. *)
Definition at_col (c : Z) : Parse.Location := Parse.mkLocation "example.imp" 1 c.

(** [{ a; b c }] *)
Definition block_a_b_c : list Parse.Token :=
  [Parse.Tok (at_col 1) Parse.LBRACE;
   Parse.Ident (at_col 3) "a"; Parse.Tok (at_col 4) Parse.SEMI;
   Parse.Ident (at_col 6) "b";
   Parse.Ident (at_col 8) "c";
   Parse.Tok (at_col 10) Parse.RBRACE].

(** The statements [a] and [b] of the examples. *)
Definition stmt_a : Parse.Stmt := Parse.ExprStmt (Parse.RefExpr "a").
Definition stmt_b : Parse.Stmt := Parse.ExprStmt (Parse.RefExpr "b").

(** A lexer positioned at the end of an empty source. *)
Definition empty_source : Parse.Lexer :=
  Parse.lexer_of (at_col 1) [].

End Examples.

(* ================================================================== *)
(** * Part V-b: invariants, layout and example programs of the machine *)
(* ================================================================== *)

Module Machine.

Import VM.

(** An Integer on the stack is a signed 64-bit value. *)
Definition representable (v : Value) : bool :=
  match v with
  | INT i => (INT64_MIN <=? i) && (i <=? INT64_MAX)
  | _ => true
  end.

Definition stack_representable (st : list Value) : bool :=
  forallb representable st.

(** What the machine asks of its native callables to keep that. *)
Definition native_keeps_representable (T : Target) : Prop :=
  forall f s s',
    native T f s = Ok s' ->
    stack_representable (stack_ s) = true ->
    stack_representable (stack_ s') = true.

(** [post m s Q]: if the computation [m] returns from [s], its value and
    final state satisfy [Q]. *)
Definition post {A} (m : M A) (s : Interp) (Q : A -> Interp -> Prop) : Prop :=
  match m s with
  | Ok (a, s') => Q a s'
  | _ => True
  end.

(** The length of an instruction: its opcode and its immediates. *)
Definition insn_size (T : Target) (o : Opcode) : nat :=
  sizeof_Opcode T +
  match o with
  | PUSH_FUNC | JUMP_FALSE | JUMP => sizeof_size_t T
  | PUSH_PROTO => sizeof_RuntimeFn T
  | PUSH_INT => sizeof_int64_t T
  | PEEK => sizeof_unsigned T
  | RET => sizeof_unsigned T + sizeof_unsigned T
  | _ => 0
  end.

(** Opcodes that go on at the next instruction. *)
Definition falls_through (o : Opcode) : bool :=
  match o with
  | CALL | RET | JUMP_FALSE | JUMP | STOP => false
  | _ => true
  end.

(** The change of the stack height by an opcode, for the opcodes whose
    effect does not depend on their operands. *)
Definition stack_effect (o : Opcode) : option Z :=
  match o with
  | PUSH_FUNC | PUSH_PROTO | PUSH_INT | PEEK => Some 1
  | POP | JUMP_FALSE => Some (-1)
  | ADD | SUB | MUL | DIV | MOD | DEQ | NEQ | SM | SMEQ | GR | GREQ =>
      Some (-1)
  | JUMP | STOP => Some 0
  | CALL | RET => None
  end.

(** The comparison that holds exactly when a given one does not. *)
Definition negated (o : Opcode) : option Opcode :=
  match o with
  | DEQ => Some NEQ
  | NEQ => Some DEQ
  | SM => Some GREQ
  | GREQ => Some SM
  | SMEQ => Some GR
  | GR => Some SMEQ
  | _ => None
  end.

(** The comparison with the operands exchanged. *)
Definition mirrored (o : Opcode) : option Opcode :=
  match o with
  | DEQ => Some DEQ
  | NEQ => Some NEQ
  | SM => Some GR
  | GR => Some SM
  | SMEQ => Some GREQ
  | GREQ => Some SMEQ
  | _ => None
  end.

(** The mathematical value of ADD, SUB and MUL. *)
Definition exact (o : Opcode) (lhs rhs : Z) : option Z :=
  match o with
  | ADD => Some (lhs + rhs)
  | SUB => Some (lhs - rhs)
  | MUL => Some (lhs * rhs)
  | _ => None
  end.

End Machine.

Module Programs.

Import X86_64.
Local Open Scope list_scope.

(** A byte that names no opcode of the target, then STOP. *)
Definition unknown_prog : VM.Program := op 200 ++ op 20.

(** [PEEK(1)] at offset 0. *)
Definition peek_prog : VM.Program := op 3 ++ u32 1.

(** The caller pushes the function at offset 11 and calls it, then stops;
    the function returns at once with [RET(depth=1, nargs=2)]. *)
Definition call_return_prog : VM.Program :=
  op 0 ++ u64 11 ++ op 5 ++ op 20 ++ op 17 ++ u32 1 ++ u32 2.

(** ADD, DIV, MOD, SM, GREQ and GR one after the other, then STOP. *)
Definition ops_prog : VM.Program :=
  op 6 ++ op 9 ++ op 10 ++ op 13 ++ op 16 ++ op 15 ++ op 20.

(** [PUSH_INT(7)] at offset 0, then STOP. *)
Definition push_prog : VM.Program := op 2 ++ u64 7 ++ op 20.

End Programs.

(* ================================================================== *)
(** * Part V-c: the grammar, said with tokens *)
(* ================================================================== *)

Module Grammar.

Import Parse.
Local Open Scope string_scope.
Local Open Scope list_scope.

(** The tokens an expression can start with. *)
Definition starts_term (k : Kind) : bool :=
  match k with
  | IDENT | INT | LPAREN => true
  | _ => false
  end.

(** The tokens that select a statement form of their own. *)
Definition statement_keyword (k : Kind) : bool :=
  match k with
  | RETURN | WHILE | LBRACE | IF => true
  | _ => false
  end.

(** The three binary levels, tightest first. *)
Inductive Level : Type := Multiplicative | Additive | Comparison.

(** The operator tokens of a level and the node kind each one builds. *)
Definition operator (lev : Level) (k : Kind) : option BinaryKind :=
  match lev, k with
  | Multiplicative, MULTIPLY => Some MUL
  | Multiplicative, DIVIDE => Some DIV
  | Multiplicative, MODULO => Some MOD
  | Additive, PLUS => Some ADD
  | Additive, MINUS => Some SUB
  | Comparison, DOUBLE_EQUAL => Some DEQ
  | Comparison, NOT_EQUAL => Some NEQ
  | Comparison, SMALLER => Some SM
  | Comparison, SMALLER_OR_EQUAL => Some SMEQ
  | Comparison, GREATER => Some GR
  | Comparison, GREATER_OR_EQUAL => Some GREQ
  | _, _ => None
  end.

(** [tighter l1 l2]: the level [l1] binds strictly tighter than [l2]. *)
Definition tighter (l1 l2 : Level) : bool :=
  match l1, l2 with
  | Multiplicative, (Additive | Comparison) => true
  | Additive, Comparison => true
  | _, _ => false
  end.

(** A link of a chain: an operator token and the integer literal after
    it, each at its own location. *)
Record Link : Type := mkLink {
  op_loc : Location;
  op_kind : Kind;
  lit_loc : Location;
  lit : Z
}.

Definition link_tokens (l : Link) : list Token :=
  [Tok (op_loc l) (op_kind l); Int (lit_loc l) (lit l)].

Definition chain_tokens (links : list Link) : list Token :=
  flat_map link_tokens links.

(** Every operator of the chain belongs to the level. *)
Definition all_at (lev : Level) (links : list Link) : bool :=
  forallb (fun l => match operator lev (op_kind l) with
                    | Some _ => true
                    | None => false
                    end) links.

(** The tree of a chain, nested to the left. *)
Definition chain_tree (lev : Level) (first : Expr) (links : list Link)
  : Expr :=
  fold_left (fun acc l =>
               match operator lev (op_kind l) with
               | Some k => BinaryExpr k acc (IntExpr (lit l))
               | None => acc
               end) links first.

(** The location of the last literal of a chain that starts at [l0]. *)
Definition chain_end (l0 : Location) (links : list Link) : Location :=
  last (map lit_loc links) l0.

(** A token that continues no expression: no operator and no opening
    parenthesis. *)
Definition ends_expression (k : Kind) : bool :=
  match k with
  | LPAREN | PLUS | MINUS | MULTIPLY | DIVIDE | MODULO
  | DOUBLE_EQUAL | NOT_EQUAL | GREATER | GREATER_OR_EQUAL
  | SMALLER | SMALLER_OR_EQUAL => false
  | _ => true
  end.

(** The statement form a token selects: the node built from a keyword, an
    expression statement from a token that starts a term, none otherwise. *)
Definition built_from (k : Kind) (s : Stmt) : bool :=
  match s, k with
  | ReturnStmt _, RETURN => true
  | WhileStmt _ _, WHILE => true
  | BlockStmt _, LBRACE => true
  | IfStmt _ _ _, IF => true
  | ExprStmt _, (IDENT | INT | LPAREN) => true
  | _, _ => false
  end.

(** An argument of a call: an integer literal and the separator after it,
    a comma, or the closing parenthesis after the last argument. *)
Record Arg : Type := mkArg {
  arg_loc : Location;
  arg_lit : Z;
  sep_loc : Location
}.

Fixpoint args_tokens (a : Arg) (rest : list Arg) : list Token :=
  Int (arg_loc a) (arg_lit a) ::
  match rest with
  | [] => [Tok (sep_loc a) RPAREN]
  | b :: rest' => Tok (sep_loc a) COMMA :: args_tokens b rest'
  end.

Definition args_end (a : Arg) (rest : list Arg) : Location :=
  sep_loc (last rest a).

(** The statements of a block, each an integer literal with the separator
    after it, a semicolon, or the closing brace after the last one. *)
Fixpoint stmts_tokens (a : Arg) (rest : list Arg) : list Token :=
  Int (arg_loc a) (arg_lit a) ::
  match rest with
  | [] => [Tok (sep_loc a) RBRACE]
  | b :: rest' => Tok (sep_loc a) SEMI :: stmts_tokens b rest'
  end.

(** The head of an [if]: the keyword and a parenthesised integer literal. *)
Record Guard : Type := mkGuard {
  if_loc : Location;
  open_loc : Location;
  guard_loc : Location;
  guard_lit : Z;
  close_loc : Location
}.

Definition guard_tokens (g : Guard) : list Token :=
  [Tok (if_loc g) IF; Tok (open_loc g) LPAREN;
   Int (guard_loc g) (guard_lit g); Tok (close_loc g) RPAREN].

(** [if (g1) ... if (gn) if (g) x else y]: any number of enclosing heads,
    the innermost head, and one [else] after the statement [x]. *)
Definition nested_if_tokens (outer : list Guard) (inner : Guard)
           (lx : Location) (x : Z) (le ly : Location) (y : Z) : list Token :=
  flat_map guard_tokens outer ++
  guard_tokens inner ++ [Int lx x; Tok le ELSE; Int ly y].

(** The tree in which the innermost [if] has the else branch and no
    enclosing one has. *)
Definition nested_if_tree (outer : list Guard) (inner : Guard) (x y : Z)
  : Stmt :=
  fold_right (fun g s => IfStmt (IntExpr (guard_lit g)) s None)
             (IfStmt (IntExpr (guard_lit inner)) (ExprStmt (IntExpr x))
                     (Some (ExprStmt (IntExpr y))))
             outer.

(** A parameter of a function item: [name : type] and the separator
    after it, a comma, or the closing parenthesis after the last one. *)
Record Param : Type := mkParam {
  name_loc : Location;
  param_name : string;
  colon_loc : Location;
  type_loc : Location;
  param_type : string;
  after_loc : Location
}.

Fixpoint params_tokens (p : Param) (rest : list Param) (tail : list Token)
  : list Token :=
  Ident (name_loc p) (param_name p) ::
  Tok (colon_loc p) COLON ::
  Ident (type_loc p) (param_type p) ::
  match rest with
  | [] => Tok (after_loc p) RPAREN :: tail
  | q :: rest' => Tok (after_loc p) COMMA :: params_tokens q rest' tail
  end.

(** The parameter list after the opening parenthesis, closing parenthesis
    included, followed by [tail]; [rp] places the parenthesis of an empty
    list. *)
Definition param_list_tokens (rp : Location) (ps : list Param)
           (tail : list Token) : list Token :=
  match ps with
  | [] => Tok rp RPAREN :: tail
  | p :: rest => params_tokens p rest tail
  end.

Definition signature (ps : list Param) : list (string * string) :=
  map (fun p => (param_name p, param_type p)) ps.

(** The token found after an operand of a chain: an operator of the level
    or the end of the input. *)
Definition chain_next (lev : Level) (k : Kind) : Prop :=
  k = END \/ operator lev k <> None.

End Grammar.

Module Sources.

Import Parse Grammar.
Local Open Scope string_scope.
Local Open Scope list_scope.

Definition col (c : Z) : Location := mkLocation "example.imp" 1 c.

(** [8 - 3 - 2] after its first literal: two links of the additive level. *)
Definition minus_3_minus_2 : list Link :=
  [mkLink (col 3) MINUS (col 5) 3; mkLink (col 7) MINUS (col 9) 2].

(** [- 1] *)
Definition minus_one : Lexer := lexer_of (col 1) [Tok (col 1) MINUS; Int (col 2) 1].

(** [while x] *)
Definition while_x : Lexer :=
  lexer_of (col 1) [Tok (col 1) WHILE; Ident (col 7) "x"].

(** [return 1] *)
Definition return_1 : Lexer :=
  lexer_of (col 1) [Tok (col 1) RETURN; Int (col 8) 1].

(** [1 < 2 + 3] *)
Definition one_less_two_plus_three : Lexer :=
  lexer_of (col 1)
    [Int (col 1) 1; Tok (col 3) SMALLER; Int (col 5) 2; Tok (col 7) PLUS;
     Int (col 9) 3].

(** [(1 - 2) * 3] *)
Definition grouped_left : Lexer :=
  lexer_of (col 1)
    [Tok (col 1) LPAREN; Int (col 2) 1; Tok (col 4) MINUS; Int (col 6) 2;
     Tok (col 7) RPAREN; Tok (col 9) MULTIPLY; Int (col 11) 3].

(** [x] *)
Definition just_x : Lexer := lexer_of (col 1) [Ident (col 1) "x"].

End Sources.

(* ================================================================== *)
(** * Part VI: properties of the virtual machine *)
(* ================================================================== *)

Module VMProps.

Import VM Spec.

(** ** Decoding *)

Lemma Read_imm_at (T : Target) (prog : Program) (size : nat) (s : Interp) :
  Read T prog size s =
  match imm_at T prog (pc_ s) size with
  | Some v => Ok (v, mkInterp (pc_ s + Z.of_nat size) (stack_ s))
  | None => Undefined
  end.
Proof.
  unfold Read, imm_at, bind, get_pc, set_pc, ret, undefined.
  destruct ((0 <=? pc_ s) && _); reflexivity.
Qed.

Lemma step_fetch (T : Target) (prog : Program) (pc : Z) (st : list Value)
      (o : Opcode) :
  opcode_at T prog pc = Some o ->
  step T prog (mkInterp pc st) =
  exec T prog o (mkInterp (pc + Z.of_nat (sizeof_Opcode T)) st).
Proof.
  unfold opcode_at, step, bind. intros H.
  rewrite Read_imm_at. cbn [pc_ stack_].
  destruct (imm_at T prog pc (sizeof_Opcode T)) as [n|]; [|discriminate].
  rewrite H. reflexivity.
Qed.

(** ** Machine integers *)

Lemma to_int64_mod (x : Z) : to_int64 (x mod two64) = to_int64 x.
Proof.
  unfold to_int64. rewrite Z.mod_mod by (unfold two64; lia). reflexivity.
Qed.

Lemma to_int64_id (x : Z) : in_int64 x -> to_int64 x = x.
Proof.
  unfold in_int64, INT64_MIN, INT64_MAX, to_int64, two64. intros H.
  destruct (Z_lt_dec x 0) as [Hneg|Hpos].
  - replace (x mod 2 ^ 64) with (x + 2 ^ 64).
    + destruct (x + 2 ^ 64 <? 2 ^ 63) eqn:E; [apply Z.ltb_lt in E|]; lia.
    + apply Z.mod_unique with (q := -1); lia.
  - rewrite Z.mod_small by lia.
    destruct (x <? 2 ^ 63) eqn:E; [|apply Z.ltb_ge in E]; lia.
Qed.

Lemma add_result_spec (rhs lhs : Z) : add_result rhs lhs = to_int64 (lhs + rhs).
Proof.
  unfold add_result, to_uint64. rewrite to_int64_mod.
  rewrite <- to_int64_mod.
  rewrite <- Z.add_mod by (unfold two64; lia).
  rewrite to_int64_mod. f_equal. lia.
Qed.

(** ** The binary operators, one equation for all eleven *)

Lemma exec_binary (T : Target) (prog : Program) (o : Opcode) (pc : Z)
      (rhs lhs : Z) (rest : list Value) :
  is_binary o = true ->
  exec T prog o (mkInterp pc (INT rhs :: INT lhs :: rest)) =
  match binop o lhs rhs with
  | Some r => Ok (Continue, mkInterp pc (INT r :: rest))
  | None => Undefined
  end.
Proof.
  destruct o; try discriminate; intros _; cbn.
  - rewrite add_result_spec. reflexivity.
  - reflexivity.
  - reflexivity.
  - unfold div_faults. destruct ((rhs =? 0) || _); reflexivity.
  - unfold div_faults. destruct ((rhs =? 0) || _); reflexivity.
  - unfold bool_result. destruct (lhs =? rhs); reflexivity.
  - unfold bool_result. destruct (lhs =? rhs); reflexivity.
  - unfold bool_result. destruct (lhs <? rhs); reflexivity.
  - unfold bool_result. destruct (lhs <=? rhs); reflexivity.
  - unfold bool_result. rewrite Z.gtb_ltb. destruct (rhs <? lhs); reflexivity.
  - unfold bool_result. rewrite Z.geb_leb. destruct (rhs <=? lhs); reflexivity.
Qed.

(** ** CALL *)

(** C2. CALL pops the callee.  An Integer callee aborts with the runtime
    error "cannot call integer".  An Address callee makes the machine push
    the program counter, which already points past the CALL opcode, as an
    Address and then jump to the callee.  A native callee is invoked on the
    state left by the pop, and the outcome of CALL is the outcome of that
    invocation: the opcode itself raises an error for an Integer only. *)
Theorem call_by_kind (T : Target) (prog : Program) (pc : Z)
        (callee : Value) (rest : list Value) :
  opcode_at T prog pc = Some CALL ->
  let next := pc + Z.of_nat (sizeof_Opcode T) in
  step T prog (mkInterp pc (callee :: rest)) =
  match callee with
  | INT _ => Throw (RuntimeError "cannot call integer")
  | ADDR a => Ok (Continue, mkInterp a (ADDR next :: rest))
  | PROTO f => after_native (native T f (mkInterp next rest))
  end.
Proof.
  intros H next. rewrite (step_fetch _ _ _ _ _ H).
  destruct callee; reflexivity.
Qed.

Lemma call_by_kind_witness :
  opcode_at X86_64.target Examples.call_prog 0 = Some CALL /\
  step X86_64.target Examples.call_prog (mkInterp 0 [ADDR 40; INT 41]) =
  Ok (Continue, mkInterp 40 [ADDR 1; INT 41]).
Proof.
  split; [reflexivity|].
  exact (call_by_kind X86_64.target Examples.call_prog 0 (ADDR 40) [INT 41]
                      eq_refl).
Defined.

(** ** The binary operators *)

(** C3. Every arithmetic and comparison opcode pops the right-hand operand
    first and the left-hand operand second, and pushes [lhs <op> rhs]: with
    [rhs] on top of [lhs], the result [r] of [lhs <op> rhs] replaces both.
    SUB pushes [lhs - rhs] and DIV pushes the quotient of [lhs] by [rhs],
    the second-popped over the first-popped. *)
Theorem binary_operand_order (T : Target) (prog : Program) (pc : Z)
        (o : Opcode) (rhs lhs r : Z) (rest : list Value) :
  is_binary o = true ->
  opcode_at T prog pc = Some o ->
  binop o lhs rhs = Some r ->
  step T prog (mkInterp pc (INT rhs :: INT lhs :: rest)) =
  Ok (Continue, mkInterp (pc + Z.of_nat (sizeof_Opcode T)) (INT r :: rest))
  /\ (o = SUB -> r = to_int64 (lhs - rhs))
  /\ (o = DIV -> r = Z.quot lhs rhs /\ rhs <> 0).
Proof.
  intros Hb Hop Hr. split; [|split].
  - rewrite (step_fetch _ _ _ _ _ Hop), exec_binary by assumption.
    rewrite Hr. reflexivity.
  - intros ->. unfold binop in Hr. congruence.
  - intros ->. unfold binop in Hr.
    destruct ((rhs =? 0) || _) eqn:E in Hr; [discriminate|].
    apply orb_false_iff in E. destruct E as [E _].
    apply Z.eqb_neq in E. split; congruence.
Qed.

Lemma binary_operand_order_witness :
  step X86_64.target Examples.sub_prog (mkInterp 0 [INT 3; INT 8; INT 9]) =
  Ok (Continue, mkInterp 1 [INT 5; INT 9]).
Proof.
  exact (proj1 (binary_operand_order X86_64.target Examples.sub_prog 0 SUB
                  3 8 5 [INT 9] eq_refl eq_refl eq_refl)).
Defined.

(** C8, as stated, fails: DIV on a stack whose top two values are the
    Integers 0 (divisor, on top) and 1 divides by zero; no stack, shorter or
    not, is left behind. *)
Lemma binary_frame_div_by_zero :
  opcode_at X86_64.target Examples.div_prog 0 = Some DIV /\
  is_binary DIV = true /\
  step X86_64.target Examples.div_prog (mkInterp 0 [INT 0; INT 1; INT 9]) =
  Undefined /\
  ~ (exists s',
        step X86_64.target Examples.div_prog (mkInterp 0 [INT 0; INT 1; INT 9])
        = Ok (Continue, s')).
Proof.
  repeat split. intros [s' H]. discriminate H.
Qed.

(** C8, amended. Every arithmetic and comparison opcode, executed on a stack
    of height at least 2 whose top two values are Integers and, for DIV and
    MOD, whose division has a value (the divisor is not zero and the
    operation is not [INT64_MIN] by [-1]), leaves the stack exactly one value
    shorter and leaves every slot below the top two unchanged: one Integer
    result stands where the two operands stood. *)
Theorem binary_frame (T : Target) (prog : Program) (pc : Z) (o : Opcode)
        (rhs lhs : Z) (rest : list Value) :
  is_binary o = true ->
  opcode_at T prog pc = Some o ->
  (o = DIV \/ o = MOD -> div_faults rhs lhs = false) ->
  let s := mkInterp pc (INT rhs :: INT lhs :: rest) in
  exists (r : Z) (s' : Interp),
    step T prog s = Ok (Continue, s') /\
    stack_ s' = INT r :: rest /\
    height s' = height s - 1.
Proof.
  intros Hb Hop Hdiv s.
  assert (Hsome : exists r, binop o lhs rhs = Some r).
  { destruct o; try discriminate Hb; cbn [binop]; eauto;
      unfold div_faults in Hdiv; rewrite Hdiv by auto; eauto. }
  destruct Hsome as [r Hr].
  exists r, (mkInterp (pc + Z.of_nat (sizeof_Opcode T)) (INT r :: rest)).
  split; [|split].
  - subst s. rewrite (step_fetch _ _ _ _ _ Hop), exec_binary by assumption.
    rewrite Hr. reflexivity.
  - reflexivity.
  - unfold height, s. cbn [stack_ List.length]. lia.
Qed.

Lemma binary_frame_witness :
  exists (r : Z) (s' : Interp),
    step X86_64.target Examples.div_prog (mkInterp 0 [INT 2; INT 7; INT 9]) =
    Ok (Continue, s') /\
    stack_ s' = [INT r; INT 9] /\
    height s' = height (mkInterp 0 [INT 2; INT 7; INT 9]) - 1.
Proof.
  exact (binary_frame X86_64.target Examples.div_prog 0 DIV 2 7 [INT 9]
                      eq_refl eq_refl (fun _ => eq_refl)).
Defined.

(** ** The overflow test of ADD and SUB *)

(** Two's complement conversion on the range of a sum or difference of two
    signed 64-bit values. *)
Lemma to_int64_cases (x : Z) :
  - two64 <= x < two64 ->
  to_int64 x =
  if x <? INT64_MIN then x + two64
  else if x <=? INT64_MAX then x else x - two64.
Proof.
  unfold to_int64, two64, INT64_MIN, INT64_MAX. intros H.
  destruct (Z_lt_dec x 0) as [Hneg|Hpos].
  - replace (x mod 2 ^ 64) with (x + 2 ^ 64)
      by (apply Z.mod_unique with (q := -1); lia).
    destruct (x <? - 2 ^ 63) eqn:E1; destruct (x + 2 ^ 64 <? 2 ^ 63) eqn:E2;
      destruct (x <=? 2 ^ 63 - 1) eqn:E3; lia.
  - rewrite Z.mod_small by lia.
    destruct (x <? - 2 ^ 63) eqn:E1; destruct (x <? 2 ^ 63) eqn:E2;
      destruct (x <=? 2 ^ 63 - 1) eqn:E3; lia.
Qed.

Ltac int64_cases :=
  unfold in_int64, INT64_MIN, INT64_MAX, two64 in *;
  repeat match goal with
         | |- context [?a <? ?b] => destruct (Z.ltb_spec a b)
         | |- context [?a <=? ?b] => destruct (Z.leb_spec a b)
         | |- context [?a >? ?b] => rewrite (Z.gtb_ltb a b)
         end;
  cbn [andb orb]; try lia; try congruence.

(** X7. For ADD the test is sound: it holds only when the sum overflows. *)
Lemma add_overflow_test_sound (rhs lhs : Z) :
  in_int64 rhs -> in_int64 lhs ->
  overflow_test rhs lhs (add_result rhs lhs) = true ->
  ~ in_int64 (lhs + rhs).
Proof.
  intros Hr Hl. rewrite add_result_spec.
  rewrite to_int64_cases
    by (unfold in_int64, INT64_MIN, INT64_MAX, two64 in *; lia).
  unfold overflow_test. intros Ht Hin. revert Ht. int64_cases.
Qed.

(** X8. For ADD the test misses one overflow only: the sum of [INT64_MIN] with
    itself wraps to zero, which the test does not take for positive. *)
Lemma add_overflow_test_complete (rhs lhs : Z) :
  in_int64 rhs -> in_int64 lhs ->
  ~ in_int64 (lhs + rhs) ->
  ~ (lhs = INT64_MIN /\ rhs = INT64_MIN) ->
  overflow_test rhs lhs (add_result rhs lhs) = true.
Proof.
  intros Hr Hl Hout Hmin. rewrite add_result_spec.
  rewrite to_int64_cases
    by (unfold in_int64, INT64_MIN, INT64_MAX, two64 in *; lia).
  unfold overflow_test. int64_cases.
Qed.

(** Adding the maximum signed 64-bit value and 1 triggers the test. *)
Lemma add_max_one_overflow_test :
  overflow_test 1 INT64_MAX (add_result 1 INT64_MAX) = true /\
  overflow_test INT64_MAX 1 (add_result INT64_MAX 1) = true.
Proof. split; reflexivity. Qed.

(** X9. For SUB the test holds only when the difference does not overflow:
    operands of the same sign cannot overflow a difference, so the test is
    false at every overflow of SUB, and where it holds it is a false alarm. *)
Lemma sub_overflow_test_wrong (rhs lhs : Z) :
  in_int64 rhs -> in_int64 lhs ->
  overflow_test rhs lhs (sub_result rhs lhs) = true ->
  in_int64 (lhs - rhs).
Proof.
  intros Hr Hl. unfold sub_result.
  rewrite to_int64_cases
    by (unfold in_int64, INT64_MIN, INT64_MAX, two64 in *; lia).
  unfold overflow_test. intros Ht.
  assert (D : in_int64 (lhs - rhs) \/ ~ in_int64 (lhs - rhs))
    by (unfold in_int64; lia).
  destruct D as [D|D]; [exact D|exfalso].
  revert Ht. int64_cases.
Qed.

(** C4. The test does not detect every signed overflow.  For SUB with
    [lhs = INT64_MAX] and [rhs = -1] the difference [2^63] is out of range,
    yet the test is false whatever the result is, and the machine pushes
    the wrapped value [INT64_MIN]; and for SUB with [lhs = -1] and
    [rhs = -5] the difference [4] is in range, yet the test holds.  For ADD
    with both operands [INT64_MIN]
    the sum [-2^64] is out of range, the result wraps to zero and the test
    is false. *)
Theorem overflow_test_misses :
  (in_int64 INT64_MAX /\ in_int64 (-1) /\
   ~ in_int64 (INT64_MAX - (-1)) /\
   (forall result, overflow_test (-1) INT64_MAX result = false) /\
   step X86_64.target Examples.sub_prog
        (mkInterp 0 [INT (-1); INT INT64_MAX]) =
   Ok (Continue, mkInterp 1 [INT INT64_MIN]))
  /\
  (in_int64 (-1 - -5) /\
   overflow_test (-5) (-1) (sub_result (-5) (-1)) = true)
  /\
  (in_int64 INT64_MIN /\
   ~ in_int64 (INT64_MIN + INT64_MIN) /\
   add_result INT64_MIN INT64_MIN = 0 /\
   overflow_test INT64_MIN INT64_MIN (add_result INT64_MIN INT64_MIN) = false).
Proof.
  unfold in_int64, INT64_MIN, INT64_MAX.
  repeat split; try lia; try reflexivity; try (intros [? ?]; lia).
Qed.

(** ** JUMP_FALSE *)

(** C7. JUMP_FALSE with an Integer condition on top of the stack pops the
    condition and reads the address operand; the program counter becomes
    the operand when the condition is [Integer 0] and the offset just
    after the operand otherwise.  When the operand is not that offset
    itself, the counter equals the operand if and only if the condition
    is zero. *)
Theorem jump_false_integer (T : Target) (prog : Program) (pc : Z)
        (c addr : Z) (rest : list Value) :
  opcode_at T prog pc = Some JUMP_FALSE ->
  let operand := pc + Z.of_nat (sizeof_Opcode T) in
  let next := operand + Z.of_nat (sizeof_size_t T) in
  imm_at T prog operand (sizeof_size_t T) = Some addr ->
  exists s',
    step T prog (mkInterp pc (INT c :: rest)) = Ok (Continue, s') /\
    stack_ s' = rest /\
    pc_ s' = (if c =? 0 then addr else next) /\
    (addr <> next -> (pc_ s' = addr <-> c = 0)).
Proof.
  intros Hop operand next Himm.
  exists (mkInterp (if c =? 0 then addr else next) rest).
  split; [|split; [|split]]; try reflexivity.
  - rewrite (step_fetch _ _ _ _ _ Hop).
    unfold exec, bind at 1. cbn [Pop get_stack set_stack bind ret stack_ pc_].
    unfold bind at 1. rewrite Read_imm_at. cbn [pc_ stack_].
    fold operand. rewrite Himm. fold next.
    cbn [truth]. destruct (c =? 0); reflexivity.
  - intros Hne. cbn [pc_]. destruct (Z.eqb_spec c 0); split; congruence.
Qed.

Lemma jump_false_integer_witness :
  exists s',
    step X86_64.target Examples.jump_false_prog (mkInterp 0 [INT 0; INT 9]) =
    Ok (Continue, s') /\
    stack_ s' = [INT 9] /\
    pc_ s' = 64 /\
    (64 <> 9 -> (pc_ s' = 64 <-> 0 = 0)).
Proof.
  exact (jump_false_integer X86_64.target Examples.jump_false_prog 0 0 64
                            [INT 9] eq_refl eq_refl).
Defined.

(** ** RET *)

Lemma shrink_app (pc : Z) (xs ys : list Value) (n : Z) :
  Z.of_nat (List.length xs) = n ->
  shrink n (mkInterp pc (xs ++ ys)) = Ok (tt, mkInterp pc ys).
Proof.
  intros <-. unfold shrink, bind, get_stack, set_stack, throw.
  cbn [stack_ pc_]. rewrite length_app, Nat2Z.id.
  destruct (Z.leb_spec (Z.of_nat (List.length xs))
                       (Z.of_nat (List.length xs + List.length ys))); [|lia].
  rewrite skipn_app, skipn_all, Nat.sub_diag. reflexivity.
Qed.

(** C1, as stated, fails: for [RET(depth=1, nargs=2)] on a stack of height 6
    the height after is 2, which is neither 6 minus 3 plus 1 nor 6 minus 3:
    the slot of the return address goes too. *)
Lemma ret_height_return_address_slot :
  opcode_at X86_64.target Examples.ret_prog 0 = Some RET /\
  imm_at X86_64.target Examples.ret_prog 1 4 = Some 1 /\
  imm_at X86_64.target Examples.ret_prog 5 4 = Some 2 /\
  exists s',
    step X86_64.target Examples.ret_prog Examples.ret_state =
    Ok (Continue, s') /\
    height Examples.ret_state = 6 /\
    height s' = 2 /\
    height s' <> height Examples.ret_state - (1 + 2) + 1 /\
    height s' <> height Examples.ret_state - (1 + 2).
Proof.
  repeat split.
  exists (mkInterp 100 [INT 42; INT 9]).
  repeat split; cbn; lia.
Qed.

(** C1, amended. For every execution of RET with immediates depth [D] and
    nargs [N] on a stack that holds, from the top, the return value, [D]
    intermediate values, the return address and [N] arguments, the machine
    jumps to the return address and leaves the return value on top of what
    lay below the arguments: the height after equals the height before
    minus [D + N + 1], the intermediates, the arguments and the slot of the
    return address. *)
Theorem ret_height (T : Target) (prog : Program) (pc D N a : Z) (v : Value)
        (locals args base : list Value) :
  opcode_at T prog pc = Some RET ->
  let imm1 := pc + Z.of_nat (sizeof_Opcode T) in
  let imm2 := imm1 + Z.of_nat (sizeof_unsigned T) in
  imm_at T prog imm1 (sizeof_unsigned T) = Some D ->
  imm_at T prog imm2 (sizeof_unsigned T) = Some N ->
  Z.of_nat (List.length locals) = D ->
  Z.of_nat (List.length args) = N ->
  let s := mkInterp pc (v :: locals ++ ADDR a :: args ++ base) in
  exists s',
    step T prog s = Ok (Continue, s') /\
    s' = mkInterp a (v :: base) /\
    height s' = height s - (D + N + 1).
Proof.
  intros Hop imm1 imm2 HD HN HlenD HlenN s.
  exists (mkInterp a (v :: base)). split; [|split]; [|reflexivity|].
  - subst s. rewrite (step_fetch _ _ _ _ _ Hop). fold imm1.
    unfold exec. unfold bind at 1. rewrite Read_imm_at. cbn [pc_ stack_].
    rewrite HD. fold imm2.
    unfold bind at 1. rewrite Read_imm_at. cbn [pc_ stack_]. rewrite HN.
    unfold bind at 1. cbn [Pop get_stack set_stack bind ret stack_ pc_].
    unfold bind at 1. rewrite (shrink_app _ locals _ D HlenD).
    unfold bind at 1. cbn [PopAddr Pop get_stack set_stack bind ret stack_ pc_].
    unfold bind at 1. cbn [set_pc stack_ pc_].
    unfold bind at 1. rewrite (shrink_app _ args _ N HlenN).
    reflexivity.
  - unfold height, s. cbn [stack_ List.length].
    rewrite length_app. cbn [List.length]. rewrite length_app. lia.
Qed.

Lemma ret_height_witness :
  exists s',
    step X86_64.target Examples.ret_prog Examples.ret_state =
    Ok (Continue, s') /\
    s' = mkInterp 100 [INT 42; INT 9] /\
    height s' = height Examples.ret_state - (1 + 2 + 1).
Proof.
  exact (ret_height X86_64.target Examples.ret_prog 0 1 2 100 (INT 42)
                    [INT 5] [INT 1; INT 2] [INT 9]
                    eq_refl eq_refl eq_refl eq_refl eq_refl).
Defined.

End VMProps.

(* ================================================================== *)
(** * Part VII: properties of the parser *)
(* ================================================================== *)

Module ParseProps.

Import Parse.
Local Open Scope list_scope.

(** ** More fuel never changes a result

    A parser run that ends before the cut-off ends the same way under any
    larger cut-off: the results below are those of the C++ functions, not
    of the bound. *)

Lemma approx_refl {A} (p : P A) : approx p p.
Proof. intros lx. right. reflexivity. Qed.

Lemma approx_out_of_fuel {A} (q : P A) : approx out_of_fuel q.
Proof. intros lx. left. reflexivity. Qed.

Lemma approx_bind {A B} (m m' : P A) (k k' : A -> P B) :
  approx m m' -> (forall a, approx (k a) (k' a)) ->
  approx (bind m k) (bind m' k').
Proof.
  intros Hm Hk lx. unfold bind.
  destruct (Hm lx) as [E|E]; rewrite E.
  - left. reflexivity.
  - destruct (m' lx) as [[a lx']| | |]; try (right; reflexivity).
    apply Hk.
Qed.

Ltac mono :=
  repeat first
    [ exact (approx_refl _)
    | exact (approx_out_of_fuel _)
    | assumption
    | match goal with
      | |- approx (bind _ _) (bind _ _) => apply approx_bind; [| intros ?]
      | |- approx (if ?b then _ else _) _ => destruct b
      | |- approx (match ?x with _ => _ end) _ => destruct x
      | H : forall m : nat, (_ <= m)%nat -> _ |- _ => apply H; lia
      end ].

Section ExpressionsMono.

Variables PE PE' : P Expr.
Hypothesis HPE : approx PE PE'.

Lemma ParseTermExpr_mono : approx (ParseTermExpr PE) (ParseTermExpr PE').
Proof. unfold ParseTermExpr. mono. Qed.

Lemma ParseCallExpr_args_mono (n : nat) :
  forall m, (n <= m)%nat -> forall args,
  approx (ParseCallExpr_args PE n args) (ParseCallExpr_args PE' m args).
Proof.
  induction n as [|n IH]; intros m Hle args; [exact (approx_out_of_fuel _)|].
  destruct m as [|m]; [lia|]. cbn [ParseCallExpr_args]. mono.
Qed.

Lemma ParseCallExpr_loop_mono (n : nat) :
  forall m, (n <= m)%nat -> forall callee,
  approx (ParseCallExpr_loop PE n callee) (ParseCallExpr_loop PE' m callee).
Proof.
  induction n as [|n IH]; intros m Hle callee; [exact (approx_out_of_fuel _)|].
  destruct m as [|m]; [lia|]. cbn [ParseCallExpr_loop]. mono.
  apply ParseCallExpr_args_mono. lia.
Qed.

Lemma ParseCallExpr_mono (n m : nat) :
  (n <= m)%nat -> approx (ParseCallExpr PE n) (ParseCallExpr PE' m).
Proof.
  intros Hle. unfold ParseCallExpr. apply approx_bind.
  - apply ParseTermExpr_mono.
  - intros callee. apply ParseCallExpr_loop_mono. exact Hle.
Qed.

Lemma ParseMulDivExpr_loop_mono (n : nat) :
  forall m, (n <= m)%nat -> forall term,
  approx (ParseMulDivExpr_loop PE n term) (ParseMulDivExpr_loop PE' m term).
Proof.
  induction n as [|n IH]; intros m Hle term; [exact (approx_out_of_fuel _)|].
  destruct m as [|m]; [lia|]. cbn [ParseMulDivExpr_loop]. mono.
  apply ParseCallExpr_mono. lia.
Qed.

Lemma ParseMulDivExpr_mono (n m : nat) :
  (n <= m)%nat -> approx (ParseMulDivExpr PE n) (ParseMulDivExpr PE' m).
Proof.
  intros Hle. unfold ParseMulDivExpr. apply approx_bind.
  - apply ParseCallExpr_mono. exact Hle.
  - intros term. apply ParseMulDivExpr_loop_mono. exact Hle.
Qed.

Lemma ParseAddSubExpr_loop_mono (n : nat) :
  forall m, (n <= m)%nat -> forall term,
  approx (ParseAddSubExpr_loop PE n term) (ParseAddSubExpr_loop PE' m term).
Proof.
  induction n as [|n IH]; intros m Hle term; [exact (approx_out_of_fuel _)|].
  destruct m as [|m]; [lia|]. cbn [ParseAddSubExpr_loop]. mono.
  apply ParseMulDivExpr_mono. lia.
Qed.

Lemma ParseAddSubExpr_mono (n m : nat) :
  (n <= m)%nat -> approx (ParseAddSubExpr PE n) (ParseAddSubExpr PE' m).
Proof.
  intros Hle. unfold ParseAddSubExpr. apply approx_bind.
  - apply ParseMulDivExpr_mono. exact Hle.
  - intros term. apply ParseAddSubExpr_loop_mono. exact Hle.
Qed.

Lemma ParseCompExpr_loop_mono (n : nat) :
  forall m, (n <= m)%nat -> forall term,
  approx (ParseCompExpr_loop PE n term) (ParseCompExpr_loop PE' m term).
Proof.
  induction n as [|n IH]; intros m Hle term; [exact (approx_out_of_fuel _)|].
  destruct m as [|m]; [lia|]. cbn [ParseCompExpr_loop]. mono.
  apply ParseAddSubExpr_mono. lia.
Qed.

Lemma ParseCompExpr_mono (n m : nat) :
  (n <= m)%nat -> approx (ParseCompExpr PE n) (ParseCompExpr PE' m).
Proof.
  intros Hle. unfold ParseCompExpr. apply approx_bind.
  - apply ParseAddSubExpr_mono. exact Hle.
  - intros term. apply ParseCompExpr_loop_mono. exact Hle.
Qed.

End ExpressionsMono.

Lemma ParseExpr_mono (n : nat) :
  forall m, (n <= m)%nat -> approx (ParseExpr n) (ParseExpr m).
Proof.
  induction n as [|n IH]; intros m Hle; [exact (approx_out_of_fuel _)|].
  destruct m as [|m]; [lia|]. cbn [ParseExpr].
  apply ParseCompExpr_mono; [apply IH|]; lia.
Qed.

Section StatementsMono.

Variables PE PE' : P Expr.
Variables PS PS' : P Stmt.
Hypothesis HPE : approx PE PE'.
Hypothesis HPS : approx PS PS'.

Lemma ParseBlockStmt_loop_mono (n : nat) :
  forall m, (n <= m)%nat -> forall body,
  approx (ParseBlockStmt_loop PS n body) (ParseBlockStmt_loop PS' m body).
Proof.
  induction n as [|n IH]; intros m Hle body; [exact (approx_out_of_fuel _)|].
  destruct m as [|m]; [lia|]. cbn [ParseBlockStmt_loop]. mono.
Qed.

Lemma ParseBlockStmt_mono (n m : nat) :
  (n <= m)%nat -> approx (ParseBlockStmt PS n) (ParseBlockStmt PS' m).
Proof.
  intros Hle. unfold ParseBlockStmt. mono.
  apply ParseBlockStmt_loop_mono. exact Hle.
Qed.

Lemma ParseReturnStmt_mono : approx (ParseReturnStmt PE) (ParseReturnStmt PE').
Proof. unfold ParseReturnStmt. mono. Qed.

Lemma ParseWhileStmt_mono :
  approx (ParseWhileStmt PE PS) (ParseWhileStmt PE' PS').
Proof. unfold ParseWhileStmt. mono. Qed.

Lemma ParseIfStmt_mono : approx (ParseIfStmt PE PS) (ParseIfStmt PE' PS').
Proof. unfold ParseIfStmt. mono. Qed.

End StatementsMono.

Lemma ParseStmt_mono (n : nat) :
  forall m, (n <= m)%nat -> approx (ParseStmt n) (ParseStmt m).
Proof.
  induction n as [|n IH]; intros m Hle; [exact (approx_out_of_fuel _)|].
  destruct m as [|m]; [lia|]. cbn [ParseStmt].
  assert (HE : approx (ParseExpr n) (ParseExpr m))
    by (apply ParseExpr_mono; lia).
  assert (HS : approx (ParseStmt n) (ParseStmt m)) by (apply IH; lia).
  apply approx_bind; [exact (approx_refl _)|]. intros tk.
  destruct (GetKind tk);
    first [ apply ParseReturnStmt_mono; assumption
          | apply ParseWhileStmt_mono; assumption
          | apply ParseIfStmt_mono; assumption
          | apply ParseBlockStmt_mono; [assumption | lia]
          | apply approx_bind; [assumption | intros ?; exact (approx_refl _)] ].
Qed.

Lemma ParseModule_args_mono (n : nat) :
  forall m, (n <= m)%nat -> forall args,
  approx (ParseModule_args n args) (ParseModule_args m args).
Proof.
  induction n as [|n IH]; intros m Hle args; [exact (approx_out_of_fuel _)|].
  destruct m as [|m]; [lia|]. cbn [ParseModule_args]. mono.
Qed.

Lemma ParseModule_loop_mono (n : nat) :
  forall m, (n <= m)%nat -> forall body,
  approx (ParseModule_loop n body) (ParseModule_loop m body).
Proof.
  induction n as [|n IH]; intros m Hle body; [exact (approx_out_of_fuel _)|].
  destruct m as [|m]; [lia|]. cbn [ParseModule_loop].
  assert (HS : approx (ParseStmt n) (ParseStmt m))
    by (apply ParseStmt_mono; lia).
  assert (HA : forall args,
             approx (ParseModule_args n args) (ParseModule_args m args))
    by (intros; apply ParseModule_args_mono; lia).
  assert (HB : approx (ParseBlockStmt (ParseStmt n) n)
                      (ParseBlockStmt (ParseStmt m) m))
    by (apply ParseBlockStmt_mono; [assumption | lia]).
  mono; first [apply HA | apply HB].
Qed.

(** The results of the entry points do not depend on the cut-off. *)
Lemma ParseExpr_fuel (lx : Lexer) (r : Result (Expr * Lexer)) (fuel : nat) :
  ParseExpr_ lx = r -> r <> OutOfFuel -> (fuel_of lx <= fuel)%nat ->
  ParseExpr fuel lx = r.
Proof.
  unfold ParseExpr_. intros E Hr Hle.
  destruct (ParseExpr_mono _ _ Hle lx) as [H|H]; congruence.
Qed.

Lemma ParseBlockStmt_fuel (lx : Lexer) (r : Result (Stmt * Lexer))
      (fuel : nat) :
  ParseBlockStmt_ lx = r -> r <> OutOfFuel -> (fuel_of lx <= fuel)%nat ->
  ParseBlockStmt (ParseStmt fuel) fuel lx = r.
Proof.
  unfold ParseBlockStmt_. intros E Hr Hle.
  destruct (ParseBlockStmt_mono _ _ (ParseStmt_mono _ _ Hle) _ _ Hle lx)
    as [H|H]; congruence.
Qed.

Lemma ParseModule_fuel_irrelevant (lx : Lexer) (r : Result (Module_ * Lexer))
      (fuel : nat) :
  ParseModule lx = r -> r <> OutOfFuel -> (fuel_of lx <= fuel)%nat ->
  ParseModule_fuel fuel lx = r.
Proof.
  unfold ParseModule, ParseModule_fuel. intros E Hr Hle.
  assert (H : approx (body <- ParseModule_loop (fuel_of lx) [] ;;
                      ret (mkModule body))%parse
                     (body <- ParseModule_loop fuel [] ;;
                      ret (mkModule body))%parse).
  { apply approx_bind; [apply ParseModule_loop_mono; exact Hle|].
    intros ?. exact (approx_refl _). }
  destruct (H lx) as [H'|H']; congruence.
Qed.

(** ** Termination

    Every successful step of a parser function consumes a token, so a
    cut-off a few steps above the number of tokens left is never reached. *)

Lemma ok_bind {A B} (m : P A) (k : A -> P B) lx Q :
  ok m lx (fun a lx' => ok (k a) lx' Q) -> ok (bind m k) lx Q.
Proof. unfold ok, bind. destruct (m lx) as [[a lx']| | |]; auto. Qed.

Lemma ok_weaken {A} (p : P A) lx (Q Q' : A -> Lexer -> Prop) :
  ok p lx Q -> (forall a lx', Q a lx' -> Q' a lx') -> ok p lx Q'.
Proof. unfold ok. destruct (p lx) as [[a lx']| | |]; auto. Qed.

Lemma ok_Current lx (Q : Token -> Lexer -> Prop) :
  Q (tk_ lx) lx -> ok Current lx Q.
Proof. exact (fun H => H). Qed.

Lemma ok_Next lx (Q : Token -> Lexer -> Prop) :
  Q (tk_ (advance lx)) (advance lx) -> ok Next lx Q.
Proof. exact (fun H => H). Qed.

Lemma ok_ret {A} (a : A) lx (Q : A -> Lexer -> Prop) :
  Q a lx -> ok (ret a) lx Q.
Proof. exact (fun H => H). Qed.

Lemma ok_Check kind lx (Q : Token -> Lexer -> Prop) :
  (GetKind (tk_ lx) = kind -> Q (tk_ lx) lx) -> ok (Check kind) lx Q.
Proof.
  unfold ok, Check, bind, Current, ret, Error.
  destruct (Kind_eq_dec kind (GetKind (tk_ lx))); auto.
Qed.

Lemma ok_GetIdent tk lx (Q : string -> Lexer -> Prop) :
  (GetKind tk = IDENT -> forall s, Q s lx) -> ok (GetIdent tk) lx Q.
Proof.
  unfold ok, GetIdent, Is, ret.
  destruct (Kind_eq_dec (GetKind tk) IDENT); [|auto].
  destruct (value_ tk); auto.
Qed.

Lemma ok_GetInt tk lx (Q : Z -> Lexer -> Prop) :
  (GetKind tk = INT -> forall n, Q n lx) -> ok (GetInt tk) lx Q.
Proof.
  unfold ok, GetInt, Is, ret.
  destruct (Kind_eq_dec (GetKind tk) INT); [|auto].
  destruct (value_ tk); auto.
Qed.

Lemma ok_GetString tk lx (Q : string -> Lexer -> Prop) :
  (GetKind tk = STRING -> forall s, Q s lx) -> ok (GetString tk) lx Q.
Proof.
  unfold ok, GetString, Is, ret.
  destruct (Kind_eq_dec (GetKind tk) STRING); [|auto].
  destruct (value_ tk); auto.
Qed.

Lemma Is_true tk kind : Is tk kind = true -> GetKind tk = kind.
Proof. unfold Is. destruct (Kind_eq_dec (GetKind tk) kind); congruence. Qed.

Lemma advance_keeps lx : (remaining (advance lx) <= remaining lx)%nat.
Proof.
  unfold remaining, advance. destruct (input lx) as [|tk rest]; cbn.
  - lia.
  - destruct (Token_bool tk), (Token_bool (tk_ lx)); lia.
Qed.

Lemma advance_consumes lx :
  GetKind (tk_ lx) <> END -> (remaining (advance lx) < remaining lx)%nat.
Proof.
  unfold remaining, advance, Token_bool. intros H.
  destruct (Kind_eq_dec (GetKind (tk_ lx)) END); [contradiction|].
  destruct (input lx) as [|tk rest]; cbn; [lia|].
  destruct (Kind_eq_dec (GetKind tk) END); lia.
Qed.

(** One step of a weakest-precondition computation. *)
Ltac wp_step :=
  match goal with
  | |- ok (bind _ _) _ _ => apply ok_bind
  | |- ok Current _ _ => apply ok_Current; cbv beta
  | |- ok Next _ _ => apply ok_Next; cbv beta
  | |- ok (ret _) _ _ => apply ok_ret; cbv beta
  | |- ok (Error _ _) _ _ => exact I
  | |- ok (Expect _) _ _ => unfold Expect
  | |- ok (Check _) _ _ => apply ok_Check; intros ?
  | |- ok (GetIdent _) _ _ => apply ok_GetIdent; intros ? ?
  | |- ok (GetInt _) _ _ => apply ok_GetInt; intros ? ?
  | |- ok (GetString _) _ _ => apply ok_GetString; intros ? ?
  | |- ok (match GetKind ?t with _ => _ end) _ _ => destruct (GetKind t) eqn:?
  | |- ok (if negb ?b then _ else _) _ _ => destruct b eqn:?; cbn [negb]
  | |- ok (if ?b then _ else _) _ _ => destruct b eqn:?
  end.

Ltac wp := repeat wp_step.

Ltac tokens :=
  unfold consumes, keeps in *;
  repeat match goal with
         | H : Is _ _ = true |- _ => apply Is_true in H
         | H : _ || _ = true |- _ => apply orb_true_iff in H; destruct H
         end;
  repeat match goal with
         | |- context [remaining (advance ?lx)] =>
             lazymatch goal with
             | _ : (remaining (advance lx) < remaining lx)%nat |- _ => fail
             | _ : (remaining (advance lx) <= remaining lx)%nat |- _ => fail
             | _ => first
                 [ assert (remaining (advance lx) < remaining lx)%nat
                     by (apply advance_consumes; congruence)
                 | pose proof (advance_keeps lx) ]
             end
         | _ : context [remaining (advance ?lx)] |- _ =>
             lazymatch goal with
             | _ : (remaining (advance lx) < remaining lx)%nat |- _ => fail
             | _ : (remaining (advance lx) <= remaining lx)%nat |- _ => fail
             | _ => first
                 [ assert (remaining (advance lx) < remaining lx)%nat
                     by (apply advance_consumes; congruence)
                 | pose proof (advance_keeps lx) ]
             end
         end;
  try lia; try congruence.

(** Use the specification [H] of a callee, then go on from its result. *)
Ltac call H :=
  eapply ok_weaken; [apply H; solve [tokens] | intros ? ? ?; cbv beta].

Section ExpressionsTerminate.

Variable PE : P Expr.
Variable bound : nat.
Hypothesis HPE :
  forall lx, (remaining lx < bound)%nat -> ok PE lx (consumes lx).

Lemma ParseTermExpr_ok lx :
  (remaining lx <= bound)%nat -> ok (ParseTermExpr PE) lx (consumes lx).
Proof.
  intros Hb. unfold ParseTermExpr. wp; try solve [tokens].
  call HPE. wp. tokens.
Qed.

Lemma ParseCallExpr_args_ok fuel : forall lx args,
  (remaining lx <= bound)%nat -> GetKind (tk_ lx) <> END ->
  (remaining lx <= fuel)%nat ->
  ok (ParseCallExpr_args PE fuel args) lx (consumes lx).
Proof.
  induction fuel as [|fuel IH]; intros lx args Hb Hk Hf.
  - exfalso. unfold remaining, Token_bool in Hf.
    destruct (Kind_eq_dec (GetKind (tk_ lx)) END); [contradiction|lia].
  - cbn [ParseCallExpr_args]. wp; try solve [tokens].
    call HPE. wp; try solve [tokens].
    call IH. tokens.
Qed.

Lemma ParseCallExpr_loop_ok fuel : forall lx callee,
  (remaining lx <= bound)%nat -> (remaining lx < fuel)%nat ->
  ok (ParseCallExpr_loop PE fuel callee) lx (keeps lx).
Proof.
  induction fuel as [|fuel IH]; intros lx callee Hb Hf; [lia|].
  cbn [ParseCallExpr_loop]. wp; try solve [tokens].
  call ParseCallExpr_args_ok. wp. call IH. tokens.
Qed.

Lemma ParseCallExpr_ok fuel lx :
  (remaining lx <= bound)%nat -> (remaining lx < fuel)%nat ->
  ok (ParseCallExpr PE fuel) lx (consumes lx).
Proof.
  intros Hb Hf. unfold ParseCallExpr. wp.
  call ParseTermExpr_ok. call ParseCallExpr_loop_ok. tokens.
Qed.

Lemma ParseMulDivExpr_loop_ok fuel : forall lx term,
  (remaining lx <= bound)%nat -> (remaining lx < fuel)%nat ->
  ok (ParseMulDivExpr_loop PE fuel term) lx (keeps lx).
Proof.
  induction fuel as [|fuel IH]; intros lx term Hb Hf; [lia|].
  cbn [ParseMulDivExpr_loop]. wp; try solve [tokens].
  call ParseCallExpr_ok. call IH. tokens.
Qed.

Lemma ParseMulDivExpr_ok fuel lx :
  (remaining lx <= bound)%nat -> (remaining lx < fuel)%nat ->
  ok (ParseMulDivExpr PE fuel) lx (consumes lx).
Proof.
  intros Hb Hf. unfold ParseMulDivExpr. wp.
  call ParseCallExpr_ok. call ParseMulDivExpr_loop_ok. tokens.
Qed.

Lemma ParseAddSubExpr_loop_ok fuel : forall lx term,
  (remaining lx <= bound)%nat -> (remaining lx < fuel)%nat ->
  ok (ParseAddSubExpr_loop PE fuel term) lx (keeps lx).
Proof.
  induction fuel as [|fuel IH]; intros lx term Hb Hf; [lia|].
  cbn [ParseAddSubExpr_loop]. wp; try solve [tokens].
  call ParseMulDivExpr_ok. call IH. tokens.
Qed.

Lemma ParseAddSubExpr_ok fuel lx :
  (remaining lx <= bound)%nat -> (remaining lx < fuel)%nat ->
  ok (ParseAddSubExpr PE fuel) lx (consumes lx).
Proof.
  intros Hb Hf. unfold ParseAddSubExpr. wp.
  call ParseMulDivExpr_ok. call ParseAddSubExpr_loop_ok. tokens.
Qed.

Lemma ParseCompExpr_loop_ok fuel : forall lx term,
  (remaining lx <= bound)%nat -> (remaining lx < fuel)%nat ->
  ok (ParseCompExpr_loop PE fuel term) lx (keeps lx).
Proof.
  induction fuel as [|fuel IH]; intros lx term Hb Hf; [lia|].
  cbn [ParseCompExpr_loop]. wp; try solve [tokens].
  call ParseAddSubExpr_ok. call IH. tokens.
Qed.

Lemma ParseCompExpr_ok fuel lx :
  (remaining lx <= bound)%nat -> (remaining lx < fuel)%nat ->
  ok (ParseCompExpr PE fuel) lx (consumes lx).
Proof.
  intros Hb Hf. unfold ParseCompExpr. wp.
  call ParseAddSubExpr_ok. call ParseCompExpr_loop_ok. tokens.
Qed.

End ExpressionsTerminate.

Lemma ParseExpr_ok fuel : forall lx,
  (remaining lx + 1 < fuel)%nat -> ok (ParseExpr fuel) lx (consumes lx).
Proof.
  induction fuel as [|fuel IH]; intros lx Hf; [lia|].
  cbn [ParseExpr].
  apply (ParseCompExpr_ok (ParseExpr fuel) (fuel - 1)); try lia.
  intros lx1 H1. apply IH. lia.
Qed.

Section StatementsTerminate.

Variable PE : P Expr.
Variable PS : P Stmt.
Variable bound : nat.
Hypothesis HPE :
  forall lx, (remaining lx <= bound)%nat -> ok PE lx (consumes lx).
Hypothesis HPS :
  forall lx, (remaining lx < bound)%nat -> ok PS lx (consumes lx).

Lemma ParseBlockStmt_loop_ok fuel : forall lx body,
  (remaining lx <= bound)%nat -> GetKind (tk_ lx) <> END ->
  (remaining lx <= fuel)%nat ->
  ok (ParseBlockStmt_loop PS fuel body) lx (consumes lx).
Proof.
  induction fuel as [|fuel IH]; intros lx body Hb Hk Hf.
  - exfalso. unfold remaining, Token_bool in Hf.
    destruct (Kind_eq_dec (GetKind (tk_ lx)) END); [contradiction|lia].
  - cbn [ParseBlockStmt_loop]. wp; try solve [tokens].
    call HPS. wp; try solve [tokens].
    call IH. tokens.
Qed.

Lemma ParseBlockStmt_ok fuel lx :
  (remaining lx <= bound)%nat -> (remaining lx <= fuel)%nat ->
  ok (ParseBlockStmt PS fuel) lx (consumes lx).
Proof.
  intros Hb Hf. unfold ParseBlockStmt. wp.
  call ParseBlockStmt_loop_ok. wp. tokens.
Qed.

Lemma ParseReturnStmt_ok lx :
  (remaining lx <= bound)%nat -> ok (ParseReturnStmt PE) lx (consumes lx).
Proof.
  intros Hb. unfold ParseReturnStmt. wp. call HPE. wp. tokens.
Qed.

Lemma ParseWhileStmt_ok lx :
  (remaining lx <= bound)%nat -> ok (ParseWhileStmt PE PS) lx (consumes lx).
Proof.
  intros Hb. unfold ParseWhileStmt. wp. call HPE. wp. call HPS. wp. tokens.
Qed.

Lemma ParseIfStmt_ok lx :
  (remaining lx <= bound)%nat -> ok (ParseIfStmt PE PS) lx (consumes lx).
Proof.
  intros Hb. unfold ParseIfStmt. wp. call HPE. wp. call HPS.
  wp; try solve [tokens]. call HPS. wp. tokens.
Qed.

End StatementsTerminate.

Lemma ParseStmt_ok fuel : forall lx,
  (remaining lx + 2 < fuel)%nat -> ok (ParseStmt fuel) lx (consumes lx).
Proof.
  induction fuel as [|fuel IH]; intros lx Hf; [lia|].
  assert (HE : forall lx1, (remaining lx1 <= fuel - 2)%nat ->
                           ok (ParseExpr fuel) lx1 (consumes lx1))
    by (intros; apply ParseExpr_ok; lia).
  assert (HS : forall lx1, (remaining lx1 < fuel - 2)%nat ->
                           ok (ParseStmt fuel) lx1 (consumes lx1))
    by (intros; apply IH; lia).
  cbn [ParseStmt]. apply ok_bind, ok_Current. cbv beta.
  destruct (GetKind (tk_ lx)) eqn:Hk;
    first [ apply (ParseReturnStmt_ok _ (fuel - 2) HE); lia
          | apply (ParseWhileStmt_ok _ _ (fuel - 2) HE HS); lia
          | apply (ParseIfStmt_ok _ _ (fuel - 2) HE HS); lia
          | apply (ParseBlockStmt_ok _ (fuel - 2) HS); lia
          | wp; call HE; wp; tokens ].
Qed.

Lemma ParseModule_args_ok fuel : forall lx args,
  GetKind (tk_ lx) <> END -> (remaining lx <= fuel)%nat ->
  ok (ParseModule_args fuel args) lx (consumes lx).
Proof.
  induction fuel as [|fuel IH]; intros lx args Hk Hf.
  - exfalso. unfold remaining, Token_bool in Hf.
    destruct (Kind_eq_dec (GetKind (tk_ lx)) END); [contradiction|lia].
  - cbn [ParseModule_args]. wp; try solve [tokens].
    call IH. tokens.
Qed.

Lemma ParseModule_loop_ok fuel : forall lx body,
  (remaining lx + 3 < fuel)%nat ->
  ok (ParseModule_loop fuel body) lx (fun _ _ => True).
Proof.
  induction fuel as [|fuel IH]; intros lx body Hf; [lia|].
  cbn [ParseModule_loop]. wp; try exact I.
  - call ParseModule_args_ok. wp.
    + call IH. exact I.
    + eapply ok_weaken;
        [ apply (ParseBlockStmt_ok (ParseStmt fuel) (fuel - 2));
          [ intros lx1 Hlx1; apply ParseStmt_ok; lia | tokens | tokens ]
        | intros ? ? ?; cbv beta ].
      call IH. exact I.
  - call ParseStmt_ok. call IH. exact I.
Qed.

(** X15. The parser always terminates: on every token stream
    [ParseModule] ends with a module or an error, never at the cut-off. *)
Theorem ParseModule_terminates lx : ParseModule lx <> OutOfFuel.
Proof.
  unfold ParseModule, ParseModule_fuel, fuel_of.
  assert (H : ok (ParseModule_loop (4 + remaining lx) []) lx (fun _ _ => True))
    by (apply ParseModule_loop_ok; lia).
  unfold ok in H. unfold bind.
  destruct (ParseModule_loop (4 + remaining lx) [] lx) as [[a lx']| | |];
    try discriminate. contradiction.
Qed.

Lemma ok_terminates {A} (p : P A) lx Q : ok p lx Q -> p lx <> OutOfFuel.
Proof. unfold ok. destruct (p lx) as [[a lx']| | |]; try discriminate. auto. Qed.

Theorem ParseExpr_terminates lx : ParseExpr_ lx <> OutOfFuel.
Proof.
  unfold ParseExpr_, fuel_of.
  apply (ok_terminates _ _ _ (ParseExpr_ok (4 + remaining lx) lx ltac:(lia))).
Qed.

Theorem ParseStmt_terminates lx : ParseStmt_ lx <> OutOfFuel.
Proof.
  unfold ParseStmt_, fuel_of.
  apply (ok_terminates _ _ _ (ParseStmt_ok (4 + remaining lx) lx ltac:(lia))).
Qed.

Theorem ParseBlockStmt_terminates lx : ParseBlockStmt_ lx <> OutOfFuel.
Proof.
  unfold ParseBlockStmt_, fuel_of.
  apply (ok_terminates _ _ (consumes lx)).
  apply (ParseBlockStmt_ok _ (remaining lx + 2)); try lia.
  intros lx1 H1. apply ParseStmt_ok. lia.
Qed.

Theorem ParseCallExpr_terminates lx : ParseCallExpr_ lx <> OutOfFuel.
Proof.
  unfold ParseCallExpr_, fuel_of.
  apply (ok_terminates _ _ (consumes lx)).
  apply (ParseCallExpr_ok _ (remaining lx + 3)); try lia.
  intros lx1 H1. apply ParseExpr_ok. lia.
Qed.

Theorem ParseAddSubExpr_terminates lx : ParseAddSubExpr_ lx <> OutOfFuel.
Proof.
  unfold ParseAddSubExpr_, fuel_of.
  apply (ok_terminates _ _ (consumes lx)).
  apply (ParseAddSubExpr_ok _ (remaining lx + 3)); try lia.
  intros lx1 H1. apply ParseExpr_ok. lia.
Qed.

(** ** Blocks *)

Lemma Check_passes (kind : Kind) (lx : Lexer) :
  GetKind (tk_ lx) = kind -> Check kind lx = Ok (tk_ lx, lx).
Proof.
  intros H. unfold Check, bind, Current, ret.
  destruct (Kind_eq_dec kind (GetKind (tk_ lx))) as [E|E];
    [reflexivity | congruence].
Qed.

Lemma Check_fails (kind : Kind) (lx : Lexer) :
  GetKind (tk_ lx) <> kind ->
  Check kind lx =
  ParserError (GetLocation (tk_ lx))
              (Unexpected (tk_ lx) (ExpectingKind kind)).
Proof.
  intros H. unfold Check, bind, Current, Error.
  destruct (Kind_eq_dec kind (GetKind (tk_ lx))) as [E|E];
    [congruence | reflexivity].
Qed.

(** The stop condition of the block loop: a statement that is not followed
    by a separator ends the body there, with the token after the statement
    still current. *)
Lemma ParseBlockStmt_loop_stops (PS : P Stmt) (fuel : nat)
      (body : list Stmt) (lx lx1 : Lexer) (s : Stmt) :
  Is (tk_ (advance lx)) RBRACE = false ->
  PS (advance lx) = Ok (s, lx1) ->
  Is (tk_ lx1) SEMI = false ->
  ParseBlockStmt_loop PS (S fuel) body lx = Ok (body ++ [s], lx1).
Proof.
  intros Hbrace Hs Hsemi. cbn [ParseBlockStmt_loop].
  unfold bind, Next, Current, ret. rewrite Hbrace, Hs, Hsemi. reflexivity.
Qed.

(** Once the loop has stopped, the closing brace must be the current token:
    any other token is an error of the whole block. *)
Lemma ParseBlockStmt_requires_brace (PS : P Stmt) (fuel : nat)
      (body : list Stmt) (lx lx1 : Lexer) :
  GetKind (tk_ lx) = LBRACE ->
  ParseBlockStmt_loop PS fuel [] lx = Ok (body, lx1) ->
  GetKind (tk_ lx1) <> RBRACE ->
  ParseBlockStmt PS fuel lx =
  ParserError (GetLocation (tk_ lx1))
              (Unexpected (tk_ lx1) (ExpectingKind RBRACE)).
Proof.
  intros Hopen Hloop Hclose. unfold ParseBlockStmt.
  unfold bind at 1. rewrite (Check_passes _ _ Hopen).
  unfold bind at 1. rewrite Hloop.
  unfold bind at 1. rewrite (Check_fails _ _ Hclose). reflexivity.
Qed.

(** C5, as stated, fails: on [{ a; b c }] the block parser collects [a] and
    [b], stops at [c] and then requires the closing brace; [c] is not the
    closing brace, so the parse ends in an error and no block is produced. *)
Lemma block_a_b_c_is_an_error :
  ParseBlockStmt_ (lexer_of (Examples.at_col 1) Examples.block_a_b_c) =
  ParserError (Examples.at_col 8)
    (Unexpected (Ident (Examples.at_col 8) "c") (ExpectingKind RBRACE))
  /\
  ~ (exists lx',
        ParseBlockStmt_ (lexer_of (Examples.at_col 1) Examples.block_a_b_c) =
        Ok (BlockStmt [Examples.stmt_a; Examples.stmt_b], lx')).
Proof.
  split; [reflexivity|]. intros [lx' H]. discriminate H.
Qed.

(** C5, amended. On [{ a; b c }] the loop of the block parser collects
    exactly the two statements [a] and [b] and stops with [c] as the
    current token, not consumed; the block parser then fails with the error
    "unexpected c, expecting }" at the location of [c].  With the closing
    brace right after [b], [{ a; b }] parses to the block of [a] and [b]. *)
Theorem block_stops_at_missing_separator
        (eof l1 l2 l3 l4 l5 l6 : Location) (a b c : string) :
  let tc := Ident l5 c in
  let lx := lexer_of eof [Tok l1 LBRACE; Ident l2 a; Tok l3 SEMI;
                          Ident l4 b; tc; Tok l6 RBRACE] in
  let ab := [ExprStmt (RefExpr a); ExprStmt (RefExpr b)] in
  ParseBlockStmt_loop (ParseStmt (fuel_of lx)) (fuel_of lx) [] lx =
    Ok (ab, mkLexer tc [Tok l6 RBRACE])
  /\ ParseBlockStmt_ lx =
     ParserError l5 (Unexpected tc (ExpectingKind RBRACE))
  /\ ParseBlockStmt_
       (lexer_of eof [Tok l1 LBRACE; Ident l2 a; Tok l3 SEMI;
                      Ident l4 b; Tok l6 RBRACE]) =
     Ok (BlockStmt ab, mkLexer (End l6) []).
Proof.
  repeat split.
Qed.

(** ** Expressions *)

(** C6. The token stream [a + b * c] of three integer literals, so
    [1 + 2 * 3], parses to [ADD(a, MUL(b, c))] and not to
    [MUL(ADD(a, b), c)]: the multiplicative level binds tighter than the
    additive level.  Each level combines its subterms to the left:
    [a - b + c] is [ADD(SUB(a, b), c)] and [a / b * c] is
    [MUL(DIV(a, b), c)]. *)
Theorem precedence_and_associativity
        (eof l1 l2 l3 l4 l5 : Location) (a b c : Z) :
  let stream (op1 op2 : Kind) :=
    lexer_of eof [Int l1 a; Tok l2 op1; Int l3 b; Tok l4 op2; Int l5 c] in
  let done (e : Expr) : Result (Expr * Lexer) :=
    Ok (e, mkLexer (End l5) []) in
  ParseExpr_ (stream PLUS MULTIPLY) =
    done (BinaryExpr ADD (IntExpr a) (BinaryExpr MUL (IntExpr b) (IntExpr c)))
  /\ ParseAddSubExpr_ (stream PLUS MULTIPLY) =
     done (BinaryExpr ADD (IntExpr a)
                      (BinaryExpr MUL (IntExpr b) (IntExpr c)))
  /\ ParseExpr_ (stream PLUS MULTIPLY) <>
     done (BinaryExpr MUL (BinaryExpr ADD (IntExpr a) (IntExpr b))
                      (IntExpr c))
  /\ ParseExpr_ (stream MINUS PLUS) =
     done (BinaryExpr ADD (BinaryExpr SUB (IntExpr a) (IntExpr b))
                      (IntExpr c))
  /\ ParseExpr_ (stream DIVIDE MULTIPLY) =
     done (BinaryExpr MUL (BinaryExpr DIV (IntExpr a) (IntExpr b))
                      (IntExpr c)).
Proof.
  repeat split. intros H. discriminate H.
Qed.

(** The argument loop ends as soon as the token after the opening
    parenthesis, or after a comma, is the closing parenthesis. *)
Lemma ParseCallExpr_args_closes (PE : P Expr) (fuel : nat)
      (args : list Expr) (lx : Lexer) :
  Is (tk_ (advance lx)) RPAREN = true ->
  ParseCallExpr_args PE (S fuel) args lx = Ok (args, advance lx).
Proof.
  intros H. cbn [ParseCallExpr_args]. unfold bind, Next, ret.
  rewrite H. reflexivity.
Qed.


(** ** Modules *)

(** C9. If the first token of the input is the END token, [ParseModule]
    returns a module whose body is empty and raises no error; the lexer is
    left where it was. *)
Theorem empty_source_is_a_module (lx : Lexer) :
  GetKind (tk_ lx) = END ->
  ParseModule lx = Ok (mkModule [], lx).
Proof.
  intros H. unfold ParseModule, ParseModule_fuel, fuel_of.
  cbn [Nat.add ParseModule_loop]. unfold bind, Current, ret, Token_bool.
  rewrite H. reflexivity.
Qed.

Lemma empty_source_is_a_module_witness :
  GetKind (tk_ Examples.empty_source) = END /\
  ParseModule Examples.empty_source = Ok (mkModule [], Examples.empty_source).
Proof.
  split; [reflexivity|].
  exact (empty_source_is_a_module Examples.empty_source eq_refl).
Defined.

End ParseProps.

(* ================================================================== *)
(** * Part VIII: more properties of the virtual machine *)
(* ================================================================== *)

Module VMFacts.

Import VM Spec Machine VMProps.

(** ** Postconditions of the primitives *)

Lemma post_bind {A B} (m : M A) (k : A -> M B) s Q :
  post m s (fun a s' => post (k a) s' Q) -> post (bind m k) s Q.
Proof. unfold post, bind. destruct (m s) as [[a s']| |]; auto. Qed.

Lemma post_ret {A} (a : A) s (Q : A -> Interp -> Prop) :
  Q a s -> post (ret a) s Q.
Proof. exact (fun H => H). Qed.

Lemma post_Read T prog size s (Q : Z -> Interp -> Prop) :
  (forall v, imm_at T prog (pc_ s) size = Some v ->
             Q v (mkInterp (pc_ s + Z.of_nat size) (stack_ s))) ->
  post (Read T prog size) s Q.
Proof.
  intros H. unfold post. rewrite Read_imm_at.
  destruct (imm_at T prog (pc_ s) size); auto.
Qed.

Lemma post_Push v s (Q : unit -> Interp -> Prop) :
  Q tt (mkInterp (pc_ s) (v :: stack_ s)) -> post (Push v) s Q.
Proof. exact (fun H => H). Qed.

Lemma post_Pop s (Q : Value -> Interp -> Prop) :
  (forall v st, stack_ s = v :: st -> Q v (mkInterp (pc_ s) st)) ->
  post Pop s Q.
Proof.
  intros H. unfold post, Pop, bind, get_stack.
  destruct (stack_ s) as [|v st] eqn:E; cbn; auto.
Qed.

Lemma post_PopInt s (Q : Z -> Interp -> Prop) :
  (forall i st, stack_ s = INT i :: st -> Q i (mkInterp (pc_ s) st)) ->
  post PopInt s Q.
Proof.
  intros H. unfold PopInt. apply post_bind, post_Pop.
  intros [i|a|f] st E; cbn; auto; exact I.
Qed.

Lemma post_PopAddr s (Q : Z -> Interp -> Prop) :
  (forall a st, stack_ s = ADDR a :: st -> Q a (mkInterp (pc_ s) st)) ->
  post PopAddr s Q.
Proof.
  intros H. unfold PopAddr. apply post_bind, post_Pop.
  intros [i|a|f] st E; cbn; auto; exact I.
Qed.

Lemma post_shrink n s (Q : unit -> Interp -> Prop) :
  (n <= Z.of_nat (List.length (stack_ s)) ->
   Q tt (mkInterp (pc_ s) (skipn (Z.to_nat n) (stack_ s)))) ->
  post (shrink n) s Q.
Proof.
  intros H. unfold post, shrink, bind, get_stack, set_stack, throw.
  destruct (Z.leb_spec n (Z.of_nat (List.length (stack_ s)))); auto.
Qed.

Lemma post_set_pc pc s (Q : unit -> Interp -> Prop) :
  Q tt (mkInterp pc (stack_ s)) -> post (set_pc pc) s Q.
Proof. exact (fun H => H). Qed.

Lemma post_get_pc s (Q : Z -> Interp -> Prop) :
  Q (pc_ s) s -> post get_pc s Q.
Proof. exact (fun H => H). Qed.

Lemma post_get_stack s (Q : list Value -> Interp -> Prop) :
  Q (stack_ s) s -> post get_stack s Q.
Proof. exact (fun H => H). Qed.

Ltac vm_step :=
  match goal with
  | |- post (bind _ _) _ _ => apply post_bind
  | |- post (ret _) _ _ => apply post_ret; cbv beta
  | |- post (Read _ _ _) _ _ => apply post_Read; intros ? ?; cbn [pc_ stack_]
  | |- post (Push _) _ _ => apply post_Push; cbn [pc_ stack_]
  | |- post Pop _ _ => apply post_Pop; intros ? ? ?; cbn [pc_ stack_]
  | |- post PopInt _ _ => apply post_PopInt; intros ? ? ?; cbn [pc_ stack_]
  | |- post PopAddr _ _ => apply post_PopAddr; intros ? ? ?; cbn [pc_ stack_]
  | |- post (shrink _) _ _ => apply post_shrink; intros ?; cbn [pc_ stack_]
  | |- post (set_pc _) _ _ => apply post_set_pc; cbn [pc_ stack_]
  | |- post get_pc _ _ => apply post_get_pc; cbn [pc_ stack_]
  | |- post get_stack _ _ => apply post_get_stack; cbn [pc_ stack_]
  | |- post (throw _) _ _ => exact I
  | |- post undefined _ _ => exact I
  | |- post (if ?b then _ else _) _ _ => destruct b eqn:?
  | |- post (match ?x with _ => _ end) _ _ => destruct x eqn:?
  end.

Ltac vm := repeat vm_step.

(** ** Execution ends at STOP only *)

Lemma exec_continues T prog o s :
  o <> STOP -> post (exec T prog o) s (fun c _ => c = Continue).
Proof.
  intros Ho. destruct o; try contradiction; unfold exec; cbv zeta; vm;
    try reflexivity.
  unfold post. destruct (native T _ _); auto.
Qed.

Lemma step_returns T prog s s' :
  step T prog s = Ok (Return, s') ->
  opcode_at T prog (pc_ s) = Some STOP /\
  s' = mkInterp (pc_ s + Z.of_nat (sizeof_Opcode T)) (stack_ s).
Proof.
  unfold step, opcode_at, bind. rewrite Read_imm_at.
  destruct (imm_at T prog (pc_ s) (sizeof_Opcode T)) as [n|]; [|discriminate].
  destruct (opcode_of T n) as [o|]; [|discriminate].
  destruct o;
    try (intros H;
         match goal with
         | |- context [Some ?o = Some STOP] =>
             pose proof (exec_continues T prog o
                           (mkInterp (pc_ s + Z.of_nat (sizeof_Opcode T))
                                     (stack_ s))
                           ltac:(discriminate)) as HC;
             unfold post in HC; rewrite H in HC; discriminate HC
         end).
  cbn. intros H. injection H as <-. split; reflexivity.
Qed.

(** X1. [Interp::Run] returns only by executing STOP: whenever the loop
    returns normally, the opcode just before the final program counter is
    STOP. *)
Theorem Run_returns_at_STOP T prog fuel s s' :
  Run T prog fuel s = Some (Ok s') ->
  exists pc,
    opcode_at T prog pc = Some STOP /\
    pc_ s' = pc + Z.of_nat (sizeof_Opcode T).
Proof.
  revert s. induction fuel as [|fuel IH]; intros s H; [discriminate|].
  cbn [Run] in H.
  destruct (step T prog s) as [[[|] s1]| |] eqn:E; try discriminate.
  - apply (IH _ H).
  - injection H as <-. apply step_returns in E. destruct E as [Hop ->].
    exists (pc_ s). split; [exact Hop | reflexivity].
Qed.

(** ** Integers on the stack stay representable *)

Lemma to_int64_representable x : representable (INT (to_int64 x)) = true.
Proof.
  unfold representable, to_int64, INT64_MIN, INT64_MAX, two64.
  pose proof (Z.mod_pos_bound x (2 ^ 64) ltac:(lia)).
  destruct (x mod 2 ^ 64 <? 2 ^ 63) eqn:E;
    [apply Z.ltb_lt in E | apply Z.ltb_ge in E];
    apply andb_true_iff; split; apply Z.leb_le; lia.
Qed.

Lemma representable_range i :
  representable (INT i) = true <-> in_int64 i.
Proof.
  unfold representable, in_int64. rewrite andb_true_iff, !Z.leb_le. tauto.
Qed.

Lemma quot_representable lhs rhs :
  in_int64 lhs -> in_int64 rhs -> div_faults rhs lhs = false ->
  in_int64 (Z.quot lhs rhs).
Proof.
  unfold div_faults. intros Hl Hr Hf.
  apply orb_false_iff in Hf. destruct Hf as [H0 Hm].
  apply Z.eqb_neq in H0.
  assert (Habs : Z.abs (Z.quot lhs rhs) <= Z.abs lhs).
  { rewrite <- Z.quot_abs by exact H0.
    rewrite Z.quot_div_nonneg by lia.
    apply Z.div_le_upper_bound; nia. }
  unfold in_int64, INT64_MIN, INT64_MAX in *.
  destruct (Z.eq_dec (Z.quot lhs rhs) (2 ^ 63)) as [E|E]; [|lia].
  exfalso.
  assert (Hlhs : lhs = - 2 ^ 63) by lia.
  pose proof (Z.quot_rem' lhs rhs) as Hqr.
  pose proof (Z.rem_bound_abs lhs rhs H0) as Hrb.
  rewrite E in Hqr.
  assert (rhs = -1) by nia.
  subst. cbn in Hm. discriminate Hm.
Qed.

Lemma rem_representable lhs rhs :
  in_int64 rhs -> rhs <> 0 -> in_int64 (Z.rem lhs rhs).
Proof.
  intros Hr H0. pose proof (Z.rem_bound_abs lhs rhs H0).
  unfold in_int64, INT64_MIN, INT64_MAX in *. lia.
Qed.

Lemma stack_representable_skipn n st :
  stack_representable st = true -> stack_representable (skipn n st) = true.
Proof.
  unfold stack_representable. revert st.
  induction n as [|n IH]; intros [|v st] H; cbn in *; auto.
  apply andb_true_iff in H. apply IH. tauto.
Qed.

Lemma stack_representable_nth st n v :
  stack_representable st = true -> nth_error st n = Some v ->
  representable v = true.
Proof.
  unfold stack_representable. intros H E.
  rewrite forallb_forall in H. apply H. eapply nth_error_In. exact E.
Qed.

Lemma stack_representable_cons v st :
  stack_representable (v :: st) = true <->
  representable v = true /\ stack_representable st = true.
Proof. unfold stack_representable. cbn [forallb]. apply andb_true_iff. Qed.

Lemma bool_result_representable b : representable (INT (bool_result b)) = true.
Proof. destruct b; reflexivity. Qed.

Ltac representable :=
  cbn [pc_ stack_] in *;
  repeat match goal with
         | H : stack_ ?s = _, Hs : stack_representable (stack_ ?s) = true |- _ =>
             rewrite H in Hs
         end;
  subst;
  repeat match goal with
         | H : stack_representable (_ :: _) = true |- _ =>
             apply stack_representable_cons in H; destruct H
         end;
  repeat (apply stack_representable_cons; split);
  first
    [ assumption
    | reflexivity
    | apply to_int64_representable
    | apply bool_result_representable
    | apply stack_representable_skipn; assumption
    | apply stack_representable_skipn, stack_representable_skipn; assumption
    | idtac ].

Lemma exec_keeps_representable T prog o s :
  native_keeps_representable T ->
  stack_representable (stack_ s) = true ->
  post (exec T prog o) s
       (fun _ s' => stack_representable (stack_ s') = true).
Proof.
  intros Hnat Hs.
  destruct o; unfold exec; cbv zeta; vm; representable.
  - eapply stack_representable_nth; eassumption.
  - unfold post. destruct (native T Proto _) as [s'| |] eqn:E; auto.
    apply (Hnat _ _ _ E). assumption.
  - apply representable_range. apply quot_representable;
      try (apply representable_range; assumption). assumption.
  - apply representable_range. apply rem_representable.
    + apply representable_range; assumption.
    + unfold div_faults in *.
      match goal with
      | H : _ || _ = false |- _ =>
          apply orb_false_iff in H; destruct H as [H _];
          apply Z.eqb_neq in H; exact H
      end.
  - match goal with
    | H : skipn ?n ?st = _ :: ?st0, Hst : stack_representable ?st = true |- _ =>
        apply (stack_representable_skipn n) in Hst; rewrite H in Hst;
        apply stack_representable_cons in Hst; destruct Hst as [_ Hst]
    end.
    apply stack_representable_skipn. assumption.
Qed.

Lemma step_representable T prog s c s' :
  native_keeps_representable T ->
  stack_representable (stack_ s) = true ->
  step T prog s = Ok (c, s') ->
  stack_representable (stack_ s') = true.
Proof.
  intros Hnat Hs. unfold step, bind. rewrite Read_imm_at.
  destruct (imm_at T prog (pc_ s) (sizeof_Opcode T)) as [n|]; [|discriminate].
  destruct (opcode_of T n) as [o|].
  - intros H.
    pose proof (exec_keeps_representable T prog o
                  (mkInterp (pc_ s + Z.of_nat (sizeof_Opcode T)) (stack_ s))
                  Hnat Hs) as HP.
    unfold post in HP. rewrite H in HP. exact HP.
  - intros H. injection H as _ <-. exact Hs.
Qed.

(** X2. Every Integer the machine leaves on the stack is a signed 64-bit
    value: if all Integers on the stack are representable before and the
    native callables keep them so, they are representable after every step,
    whatever the opcode, and in the final state of every run that stops. *)
Theorem machine_keeps_representable T prog s :
  native_keeps_representable T ->
  stack_representable (stack_ s) = true ->
  (forall c s', step T prog s = Ok (c, s') ->
                stack_representable (stack_ s') = true)
  /\ (forall fuel s', Run T prog fuel s = Some (Ok s') ->
                      stack_representable (stack_ s') = true).
Proof.
  intros Hnat Hs. split.
  - intros c s' H. exact (step_representable T prog s c s' Hnat Hs H).
  - intros fuel. revert s Hs.
    induction fuel as [|fuel IH]; intros s Hs s' H; [discriminate|].
    cbn [Run] in H.
    destruct (step T prog s) as [[[|] s1]| |] eqn:E; try discriminate.
    + apply (IH s1 (step_representable T prog s _ s1 Hnat Hs E) s' H).
    + injection H as <-. exact (step_representable T prog s _ s1 Hnat Hs E).
Qed.

(** ** Single steps *)

Lemma step_binary T prog pc o rhs lhs rest :
  is_binary o = true ->
  opcode_at T prog pc = Some o ->
  step T prog (mkInterp pc (INT rhs :: INT lhs :: rest)) =
  match binop o lhs rhs with
  | Some r =>
      Ok (Continue,
          mkInterp (pc + Z.of_nat (sizeof_Opcode T)) (INT r :: rest))
  | None => Undefined
  end.
Proof.
  intros Hb Hop. rewrite (step_fetch _ _ _ _ _ Hop).
  apply exec_binary. exact Hb.
Qed.

(** X3. A byte pattern that names no opcode is not an error: the machine
    skips it and goes on at the next offset with the stack untouched. *)
Theorem unknown_opcode_is_skipped T prog pc st n :
  imm_at T prog pc (sizeof_Opcode T) = Some n ->
  opcode_of T n = None ->
  step T prog (mkInterp pc st) =
  Ok (Continue, mkInterp (pc + Z.of_nat (sizeof_Opcode T)) st).
Proof.
  intros Himm Hop. unfold step, bind. rewrite Read_imm_at. cbn [pc_ stack_].
  rewrite Himm, Hop. reflexivity.
Qed.

(** X4. PEEK(n) with [n] below the height pushes a copy of the value [n]
    slots below the top and leaves every slot in place; with [n] at or
    above the height nothing guards the access and the behaviour is
    undefined. *)
Theorem peek_copies T prog pc st idx :
  opcode_at T prog pc = Some PEEK ->
  let operand := pc + Z.of_nat (sizeof_Opcode T) in
  imm_at T prog operand (sizeof_unsigned T) = Some idx ->
  0 <= idx ->
  (idx < Z.of_nat (List.length st) ->
   exists v,
     nth_error st (Z.to_nat idx) = Some v /\
     step T prog (mkInterp pc st) =
     Ok (Continue,
         mkInterp (operand + Z.of_nat (sizeof_unsigned T)) (v :: st)))
  /\ (Z.of_nat (List.length st) <= idx ->
      step T prog (mkInterp pc st) = Undefined).
Proof.
  intros Hop operand Himm Hidx.
  assert (E : step T prog (mkInterp pc st) =
              match nth_error st (Z.to_nat idx) with
              | Some v =>
                  Ok (Continue,
                      mkInterp (operand + Z.of_nat (sizeof_unsigned T))
                               (v :: st))
              | None => Undefined
              end).
  { rewrite (step_fetch _ _ _ _ _ Hop). unfold exec.
    unfold bind at 1. rewrite Read_imm_at. cbn [pc_ stack_].
    fold operand. rewrite Himm. cbn.
    destruct (nth_error st (Z.to_nat idx)); reflexivity. }
  split; intros Hlen.
  - destruct (nth_error st (Z.to_nat idx)) as [v|] eqn:En.
    + exists v. split; [reflexivity | exact E].
    + apply nth_error_None in En. lia.
  - rewrite E.
    assert (En : nth_error st (Z.to_nat idx) = None)
      by (apply nth_error_None; lia).
    rewrite En. reflexivity.
Qed.

(** ** Call and return *)

Lemma step_RET T prog pc D N a v locals args base :
  opcode_at T prog pc = Some RET ->
  imm_at T prog (pc + Z.of_nat (sizeof_Opcode T)) (sizeof_unsigned T)
  = Some D ->
  imm_at T prog (pc + Z.of_nat (sizeof_Opcode T)
                 + Z.of_nat (sizeof_unsigned T)) (sizeof_unsigned T)
  = Some N ->
  Z.of_nat (List.length locals) = D ->
  Z.of_nat (List.length args) = N ->
  step T prog (mkInterp pc (v :: locals ++ ADDR a :: args ++ base)) =
  Ok (Continue, mkInterp a (v :: base)).
Proof.
  intros Hop HD HN HlenD HlenN.
  rewrite (step_fetch _ _ _ _ _ Hop).
  unfold exec. unfold bind at 1. rewrite Read_imm_at. cbn [pc_ stack_].
  rewrite HD.
  unfold bind at 1. rewrite Read_imm_at. cbn [pc_ stack_]. rewrite HN.
  unfold bind at 1. cbn [Pop get_stack set_stack bind ret stack_ pc_].
  unfold bind at 1. rewrite (shrink_app _ locals _ D HlenD).
  unfold bind at 1. cbn [PopAddr Pop get_stack set_stack bind ret stack_ pc_].
  unfold bind at 1. cbn [set_pc stack_ pc_].
  unfold bind at 1. rewrite (shrink_app _ args _ N HlenN).
  reflexivity.
Qed.

(** X5. The calling convention closes: after [PUSH_FUNC(f); CALL] over the
    arguments, the machine is at [f] with the address of the instruction
    after the CALL on top of the arguments; and whenever the callee reaches
    a [RET(depth, nargs)] whose depth is the number of values it has left
    above that frame, under its return value, and whose nargs is the number
    of arguments, the machine is back at the instruction after the CALL
    with the return value on top of the caller's stack: the arguments, the
    return address and the callee's values are gone. *)
Theorem call_return_round_trip T prog pc f args base :
  opcode_at T prog pc = Some PUSH_FUNC ->
  let operand := pc + Z.of_nat (sizeof_Opcode T) in
  let call := operand + Z.of_nat (sizeof_size_t T) in
  let back := call + Z.of_nat (sizeof_Opcode T) in
  imm_at T prog operand (sizeof_size_t T) = Some f ->
  opcode_at T prog call = Some CALL ->
  let entered := mkInterp f (ADDR back :: args ++ base) in
  step T prog (mkInterp pc (args ++ base)) =
    Ok (Continue, mkInterp call (ADDR f :: args ++ base))
  /\ step T prog (mkInterp call (ADDR f :: args ++ base)) =
     Ok (Continue, entered)
  /\ forall pc' v locals,
       opcode_at T prog pc' = Some RET ->
       imm_at T prog (pc' + Z.of_nat (sizeof_Opcode T)) (sizeof_unsigned T)
       = Some (Z.of_nat (List.length locals)) ->
       imm_at T prog (pc' + Z.of_nat (sizeof_Opcode T)
                      + Z.of_nat (sizeof_unsigned T)) (sizeof_unsigned T)
       = Some (Z.of_nat (List.length args)) ->
       step T prog (mkInterp pc' (v :: locals ++ stack_ entered)) =
       Ok (Continue, mkInterp back (v :: base)).
Proof.
  intros Hpush operand call back Hf Hcall entered. split; [|split].
  - rewrite (step_fetch _ _ _ _ _ Hpush). unfold exec.
    unfold bind at 1. rewrite Read_imm_at. cbn [pc_ stack_].
    fold operand. rewrite Hf. reflexivity.
  - rewrite (step_fetch _ _ _ _ _ Hcall). reflexivity.
  - intros pc' v locals Hret HD HN. cbn [stack_ entered].
    apply (step_RET T prog pc' _ _ back v locals args base Hret HD HN);
      reflexivity.
Qed.

(** ** Arithmetic *)

(** X6. The overflow diagnostic of ADD and SUB is built and dropped: when
    the test holds the machine does not abort, it pushes the wrapped result
    and goes on. *)
Theorem overflow_is_not_raised T prog pc o rhs lhs rest :
  (o = ADD \/ o = SUB) ->
  opcode_at T prog pc = Some o ->
  let result :=
    match o with ADD => add_result rhs lhs | _ => sub_result rhs lhs end in
  overflow_diagnostic rhs lhs result <> None ->
  step T prog (mkInterp pc (INT rhs :: INT lhs :: rest)) =
  Ok (Continue,
      mkInterp (pc + Z.of_nat (sizeof_Opcode T)) (INT result :: rest)).
Proof.
  intros Ho Hop result _. rewrite (step_fetch _ _ _ _ _ Hop).
  destruct Ho as [-> | ->]; reflexivity.
Qed.

(** X10. When the mathematical sum, difference or product of the operands is
    a signed 64-bit value, ADD, SUB and MUL push exactly that value. *)
Theorem arithmetic_is_exact_in_range T prog pc o rhs lhs r rest :
  opcode_at T prog pc = Some o ->
  exact o lhs rhs = Some r ->
  in_int64 r ->
  step T prog (mkInterp pc (INT rhs :: INT lhs :: rest)) =
  Ok (Continue, mkInterp (pc + Z.of_nat (sizeof_Opcode T)) (INT r :: rest)).
Proof.
  intros Hop He Hr.
  assert (Hb : is_binary o = true) by (destruct o; try discriminate; reflexivity).
  rewrite (step_binary _ _ _ _ _ _ _ Hb Hop).
  destruct o; try discriminate; cbn in He; injection He as <-; cbn [binop];
    rewrite (to_int64_id _ Hr); reflexivity.
Qed.

(** X11. DIV and MOD agree and truncate towards zero: on operands whose
    division has a value, the quotient [q] pushed by DIV and the remainder
    [r] pushed by MOD satisfy [lhs = q * rhs + r], the remainder is smaller
    than the divisor in absolute value and has the sign of the dividend. *)
Theorem div_mod_agree T prog pcd pcm rhs lhs rest :
  opcode_at T prog pcd = Some DIV ->
  opcode_at T prog pcm = Some MOD ->
  div_faults rhs lhs = false ->
  exists q r,
    step T prog (mkInterp pcd (INT rhs :: INT lhs :: rest)) =
      Ok (Continue,
          mkInterp (pcd + Z.of_nat (sizeof_Opcode T)) (INT q :: rest))
    /\ step T prog (mkInterp pcm (INT rhs :: INT lhs :: rest)) =
       Ok (Continue,
           mkInterp (pcm + Z.of_nat (sizeof_Opcode T)) (INT r :: rest))
    /\ lhs = q * rhs + r
    /\ Z.abs r < Z.abs rhs
    /\ (0 <= lhs -> 0 <= r)
    /\ (lhs <= 0 -> r <= 0).
Proof.
  intros Hd Hm Hf. exists (Z.quot lhs rhs), (Z.rem lhs rhs).
  assert (H0 : rhs <> 0).
  { unfold div_faults in Hf. apply orb_false_iff in Hf.
    destruct Hf as [Hf _]. apply Z.eqb_neq in Hf. exact Hf. }
  repeat split.
  - rewrite (step_binary T prog pcd DIV rhs lhs rest eq_refl Hd). cbn [binop].
    unfold div_faults in Hf. rewrite Hf. reflexivity.
  - rewrite (step_binary T prog pcm MOD rhs lhs rest eq_refl Hm). cbn [binop].
    unfold div_faults in Hf. rewrite Hf. reflexivity.
  - pose proof (Z.quot_rem' lhs rhs). lia.
  - apply Z.rem_bound_abs. exact H0.
  - intros Hl. apply Z.rem_nonneg; assumption.
  - intros Hl. apply Z.rem_nonpos; assumption.
Qed.

(** X12. A comparison pushes 1 or 0, its negated comparison pushes the other
    of the two, and the mirrored comparison on exchanged operands pushes
    the same. *)
Theorem comparisons_are_complementary T prog pc pcn pcm o on om
        rhs lhs rest :
  negated o = Some on ->
  mirrored o = Some om ->
  opcode_at T prog pc = Some o ->
  opcode_at T prog pcn = Some on ->
  opcode_at T prog pcm = Some om ->
  exists r,
    (r = 0 \/ r = 1)
    /\ step T prog (mkInterp pc (INT rhs :: INT lhs :: rest)) =
       Ok (Continue,
           mkInterp (pc + Z.of_nat (sizeof_Opcode T)) (INT r :: rest))
    /\ step T prog (mkInterp pcn (INT rhs :: INT lhs :: rest)) =
       Ok (Continue,
           mkInterp (pcn + Z.of_nat (sizeof_Opcode T)) (INT (1 - r) :: rest))
    /\ step T prog (mkInterp pcm (INT lhs :: INT rhs :: rest)) =
       Ok (Continue,
           mkInterp (pcm + Z.of_nat (sizeof_Opcode T)) (INT r :: rest)).
Proof.
  intros Hn Hmi Hop Hopn Hopm.
  assert (Hb : is_binary o = true) by (destruct o; try discriminate; reflexivity).
  assert (Hbn : is_binary on = true)
    by (destruct o; try discriminate; injection Hn as <-; reflexivity).
  assert (Hbm : is_binary om = true)
    by (destruct o; try discriminate; injection Hmi as <-; reflexivity).
  rewrite (step_binary _ _ _ _ _ _ _ Hb Hop).
  rewrite (step_binary _ _ _ _ _ _ _ Hbn Hopn).
  rewrite (step_binary _ _ _ _ _ _ _ Hbm Hopm).
  destruct o; try discriminate;
    injection Hn as <-; injection Hmi as <-; cbn [binop];
    repeat match goal with
           | |- context [?a =? ?b] => destruct (Z.eqb_spec a b)
           | |- context [?a <? ?b] => destruct (Z.ltb_spec a b)
           | |- context [?a <=? ?b] => destruct (Z.leb_spec a b)
           end;
    try lia;
    first [ exists 0; repeat split; auto; fail
          | exists 1; repeat split; auto; fail ].
Qed.

(** ** The layout and the stack effect of the instructions *)

(** X13. Every opcode that is not a transfer of control leaves the program
    counter just past its own encoding: the opcode and its immediates, of
    the sizes and in the order the machine reads them. *)
Theorem step_advances_by_instruction_size T prog s o c s' :
  opcode_at T prog (pc_ s) = Some o ->
  falls_through o = true ->
  step T prog s = Ok (c, s') ->
  c = Continue /\ pc_ s' = pc_ s + Z.of_nat (insn_size T o).
Proof.
  intros Hop Hft Hstep. destruct s as [pc st]. cbn [pc_] in *.
  rewrite (step_fetch _ _ _ _ _ Hop) in Hstep.
  assert (HP : post (exec T prog o)
                    (mkInterp (pc + Z.of_nat (sizeof_Opcode T)) st)
                    (fun c s' => c = Continue /\
                                 pc_ s' = pc + Z.of_nat (insn_size T o))).
  { destruct o; try discriminate; unfold exec; cbv zeta; vm;
      (split; [reflexivity | unfold insn_size; cbn [pc_]; lia]). }
  unfold post in HP. rewrite Hstep in HP. exact HP.
Qed.

(** X14. The stack effect of the opcodes: a step that goes through changes
    the height by +1 for the three pushes and PEEK, by -1 for POP, for
    JUMP_FALSE and for every binary operator, and by 0 for JUMP and STOP. *)
Theorem step_stack_effect T prog s o d c s' :
  opcode_at T prog (pc_ s) = Some o ->
  stack_effect o = Some d ->
  step T prog s = Ok (c, s') ->
  height s' = height s + d.
Proof.
  intros Hop Hd Hstep. destruct s as [pc st]. cbn [pc_] in *.
  rewrite (step_fetch _ _ _ _ _ Hop) in Hstep.
  assert (HP : post (exec T prog o)
                    (mkInterp (pc + Z.of_nat (sizeof_Opcode T)) st)
                    (fun _ s' => height s' = Z.of_nat (List.length st) + d)).
  { destruct o; try discriminate; injection Hd as <-;
      unfold exec; cbv zeta; vm; unfold height; cbn [pc_ stack_] in *;
      subst; cbn [List.length]; lia. }
  unfold post in HP. rewrite Hstep in HP. exact HP.
Qed.

(** ** Instances *)

Lemma Run_returns_at_STOP_witness :
  exists pc,
    opcode_at X86_64.target Programs.push_prog pc = Some STOP /\
    pc_ (mkInterp 10 [INT 7]) = pc + Z.of_nat (sizeof_Opcode X86_64.target).
Proof.
  exact (Run_returns_at_STOP X86_64.target Programs.push_prog 2
           (mkInterp 0 []) (mkInterp 10 [INT 7]) eq_refl).
Defined.

Lemma x86_64_native_keeps_representable :
  native_keeps_representable X86_64.target.
Proof.
  intros f s s' H Hs. cbn in H. injection H as <-. exact Hs.
Defined.

Lemma machine_keeps_representable_witness :
  stack_representable (stack_ (mkInterp 0 [INT 3; INT 8])) = true /\
  (forall c s',
      step X86_64.target Examples.sub_prog (mkInterp 0 [INT 3; INT 8])
      = Ok (c, s') ->
      stack_representable (stack_ s') = true)
  /\ (forall fuel s',
         Run X86_64.target Examples.sub_prog fuel (mkInterp 0 [INT 3; INT 8])
         = Some (Ok s') ->
         stack_representable (stack_ s') = true).
Proof.
  split; [reflexivity|].
  exact (machine_keeps_representable X86_64.target Examples.sub_prog
           (mkInterp 0 [INT 3; INT 8])
           x86_64_native_keeps_representable eq_refl).
Defined.

Lemma unknown_opcode_is_skipped_witness :
  step X86_64.target Programs.unknown_prog (mkInterp 0 [INT 9]) =
  Ok (Continue, mkInterp 1 [INT 9]).
Proof.
  exact (unknown_opcode_is_skipped X86_64.target Programs.unknown_prog 0
           [INT 9] 200 eq_refl eq_refl).
Defined.

Lemma peek_copies_witness :
  (1 < Z.of_nat (List.length [INT 4; INT 5; INT 6]) ->
   exists v,
     nth_error [INT 4; INT 5; INT 6] (Z.to_nat 1) = Some v /\
     step X86_64.target Programs.peek_prog (mkInterp 0 [INT 4; INT 5; INT 6])
     = Ok (Continue, mkInterp 5 [v; INT 4; INT 5; INT 6]))
  /\ (Z.of_nat (List.length [INT 4; INT 5; INT 6]) <= 1 ->
      step X86_64.target Programs.peek_prog (mkInterp 0 [INT 4; INT 5; INT 6])
      = Undefined).
Proof.
  exact (peek_copies X86_64.target Programs.peek_prog 0
           [INT 4; INT 5; INT 6] 1 eq_refl eq_refl ltac:(lia)).
Defined.

Lemma call_return_round_trip_witness :
  step X86_64.target Programs.call_return_prog (mkInterp 0 [INT 1; INT 2; INT 9]) =
    Ok (Continue, mkInterp 9 [ADDR 11; INT 1; INT 2; INT 9])
  /\ step X86_64.target Programs.call_return_prog
          (mkInterp 9 [ADDR 11; INT 1; INT 2; INT 9]) =
     Ok (Continue, mkInterp 11 [ADDR 10; INT 1; INT 2; INT 9])
  /\ step X86_64.target Programs.call_return_prog
          (mkInterp 11 [INT 42; INT 5; ADDR 10; INT 1; INT 2; INT 9]) =
     Ok (Continue, mkInterp 10 [INT 42; INT 9]).
Proof.
  destruct (call_return_round_trip X86_64.target Programs.call_return_prog 0 11
              [INT 1; INT 2] [INT 9] eq_refl eq_refl eq_refl)
    as [H1 [H2 H3]].
  split; [exact H1 | split; [exact H2|]].
  exact (H3 11 (INT 42) [INT 5] eq_refl eq_refl eq_refl).
Defined.

Lemma overflow_is_not_raised_witness :
  overflow_diagnostic 1 INT64_MAX (add_result 1 INT64_MAX) <> None /\
  step X86_64.target Programs.ops_prog (mkInterp 0 [INT 1; INT INT64_MAX]) =
  Ok (Continue, mkInterp 1 [INT INT64_MIN]).
Proof.
  split; [discriminate|].
  exact (overflow_is_not_raised X86_64.target Programs.ops_prog 0 ADD
           1 INT64_MAX [] (or_introl eq_refl) eq_refl
           ltac:(discriminate)).
Defined.

Lemma add_overflow_test_sound_witness :
  overflow_test 1 INT64_MAX (add_result 1 INT64_MAX) = true /\
  ~ in_int64 (INT64_MAX + 1).
Proof.
  split; [reflexivity|].
  apply (add_overflow_test_sound 1 INT64_MAX);
    [unfold in_int64, INT64_MIN, INT64_MAX; lia
    |unfold in_int64, INT64_MIN, INT64_MAX; lia
    |reflexivity].
Defined.

Lemma add_overflow_test_complete_witness :
  ~ in_int64 (INT64_MAX + 1) /\
  overflow_test 1 INT64_MAX (add_result 1 INT64_MAX) = true.
Proof.
  split; [unfold in_int64, INT64_MIN, INT64_MAX; lia|].
  apply (add_overflow_test_complete 1 INT64_MAX);
    unfold in_int64, INT64_MIN, INT64_MAX; lia.
Defined.

Lemma sub_overflow_test_wrong_witness :
  overflow_test (-5) (-1) (sub_result (-5) (-1)) = true /\
  in_int64 (-1 - -5).
Proof.
  split; [reflexivity|].
  apply (sub_overflow_test_wrong (-5) (-1));
    [unfold in_int64, INT64_MIN, INT64_MAX; lia
    |unfold in_int64, INT64_MIN, INT64_MAX; lia
    |reflexivity].
Defined.

Lemma arithmetic_is_exact_in_range_witness :
  step X86_64.target Programs.ops_prog (mkInterp 0 [INT 3; INT (-8)]) =
  Ok (Continue, mkInterp 1 [INT (-5)]).
Proof.
  apply (arithmetic_is_exact_in_range X86_64.target Programs.ops_prog 0 ADD
           3 (-8) (-5) []);
    [reflexivity | reflexivity
    | unfold in_int64, INT64_MIN, INT64_MAX; lia].
Defined.

Lemma div_mod_agree_witness :
  exists q r,
    step X86_64.target Programs.ops_prog (mkInterp 1 [INT 2; INT (-7)]) =
      Ok (Continue, mkInterp 2 [INT q])
    /\ step X86_64.target Programs.ops_prog (mkInterp 2 [INT 2; INT (-7)]) =
       Ok (Continue, mkInterp 3 [INT r])
    /\ -7 = q * 2 + r
    /\ Z.abs r < Z.abs 2
    /\ (0 <= -7 -> 0 <= r)
    /\ (-7 <= 0 -> r <= 0).
Proof.
  exact (div_mod_agree X86_64.target Programs.ops_prog 1 2 2 (-7) []
           eq_refl eq_refl eq_refl).
Defined.

Lemma comparisons_are_complementary_witness :
  exists r,
    (r = 0 \/ r = 1)
    /\ step X86_64.target Programs.ops_prog (mkInterp 3 [INT 5; INT 2]) =
       Ok (Continue, mkInterp 4 [INT r])
    /\ step X86_64.target Programs.ops_prog (mkInterp 4 [INT 5; INT 2]) =
       Ok (Continue, mkInterp 5 [INT (1 - r)])
    /\ step X86_64.target Programs.ops_prog (mkInterp 5 [INT 2; INT 5]) =
       Ok (Continue, mkInterp 6 [INT r]).
Proof.
  exact (comparisons_are_complementary X86_64.target Programs.ops_prog
           3 4 5 SM GREQ GR 5 2 [] eq_refl eq_refl eq_refl eq_refl eq_refl).
Defined.

Lemma step_advances_by_instruction_size_witness :
  Continue = Continue /\
  pc_ (mkInterp 9 [INT 7]) =
  pc_ (mkInterp 0 []) + Z.of_nat (insn_size X86_64.target PUSH_INT).
Proof.
  exact (step_advances_by_instruction_size X86_64.target Programs.push_prog
           (mkInterp 0 []) PUSH_INT Continue (mkInterp 9 [INT 7])
           eq_refl eq_refl eq_refl).
Defined.

Lemma step_stack_effect_witness :
  height (mkInterp 9 [INT 7]) = height (mkInterp 0 []) + 1.
Proof.
  exact (step_stack_effect X86_64.target Programs.push_prog
           (mkInterp 0 []) PUSH_INT 1 Continue (mkInterp 9 [INT 7])
           eq_refl eq_refl eq_refl).
Defined.

End VMFacts.

(* ================================================================== *)
(** * Part IX: more properties of the parser *)
(* ================================================================== *)

Module ParseFacts.

Import Parse Grammar ParseProps.
Local Open Scope list_scope.

(** ** What a successful parse has consumed *)

(** X16. An expression and a statement are never empty: whenever
    [ParseExpr] or [ParseStmt] succeeds, fewer tokens are left than
    before. *)
Theorem successful_parse_consumes (lx : Lexer) :
  (forall e lx', ParseExpr_ lx = Ok (e, lx') ->
                 (remaining lx' < remaining lx)%nat)
  /\ (forall s lx', ParseStmt_ lx = Ok (s, lx') ->
                    (remaining lx' < remaining lx)%nat).
Proof.
  split.
  - intros e lx' H.
    pose proof (ParseExpr_ok (fuel_of lx) lx) as HP.
    unfold ok, ParseExpr_ in *. rewrite H in HP.
    apply HP. unfold fuel_of. lia.
  - intros s lx' H.
    pose proof (ParseStmt_ok (fuel_of lx) lx) as HP.
    unfold ok, ParseStmt_ in *. rewrite H in HP.
    apply HP. unfold fuel_of. lia.
Qed.

Lemma ParseModule_loop_ends fuel : forall lx body,
  (remaining lx + 3 < fuel)%nat ->
  ok (ParseModule_loop fuel body) lx
     (fun _ lx' => Token_bool (tk_ lx') = false).
Proof.
  induction fuel as [|fuel IH]; intros lx body Hf; [lia|].
  cbn [ParseModule_loop]. wp; try assumption.
  - call ParseModule_args_ok. wp.
    + call IH. assumption.
    + eapply ok_weaken;
        [ apply (ParseBlockStmt_ok (ParseStmt fuel) (fuel - 2));
          [ intros lx1 Hlx1; apply ParseStmt_ok; lia | tokens | tokens ]
        | intros ? ? ?; cbv beta ].
      call IH. assumption.
  - call ParseStmt_ok. call IH. assumption.
Qed.

(** X17. A module is the whole input: whenever [ParseModule] succeeds, the
    current token is END.  Input that is left over is never dropped
    silently; it is parsed or it is an error. *)
Theorem ParseModule_consumes_all (lx lx' : Lexer) (m : Module_) :
  ParseModule lx = Ok (m, lx') -> GetKind (tk_ lx') = END.
Proof.
  unfold ParseModule, ParseModule_fuel, bind, ret. intros H.
  pose proof (ParseModule_loop_ends (fuel_of lx) lx []) as HP.
  unfold ok in HP.
  destruct (ParseModule_loop (fuel_of lx) [] lx) as [[body lx1]| | |];
    try discriminate.
  injection H as _ <-.
  assert (Hb : Token_bool (tk_ lx1) = false)
    by (apply HP; unfold fuel_of; lia).
  unfold Token_bool in Hb.
  destruct (Kind_eq_dec (GetKind (tk_ lx1)) END); [assumption|discriminate].
Qed.

(** ** Where an expression can start *)

Lemma ParseTermExpr_rejects PE lx :
  starts_term (GetKind (tk_ lx)) = false ->
  ParseTermExpr PE lx =
  ParserError (GetLocation (tk_ lx)) (Unexpected (tk_ lx) ExpectingTerm).
Proof.
  intros H. unfold ParseTermExpr, bind, Current.
  destruct (GetKind (tk_ lx)); try discriminate; reflexivity.
Qed.

Lemma ParseExpr_rejects fuel lx :
  starts_term (GetKind (tk_ lx)) = false ->
  ParseExpr (S fuel) lx =
  ParserError (GetLocation (tk_ lx)) (Unexpected (tk_ lx) ExpectingTerm).
Proof.
  intros H. cbn [ParseExpr].
  unfold ParseCompExpr, ParseAddSubExpr, ParseMulDivExpr, ParseCallExpr.
  unfold bind at 1. unfold bind at 1. unfold bind at 1. unfold bind at 1.
  rewrite (ParseTermExpr_rejects _ _ H). reflexivity.
Qed.

(** X18. An expression starts with an identifier, an integer literal or an
    opening parenthesis, and with nothing else: at any other token (a minus
    sign, a separator, the end of the input) [ParseExpr] fails with
    "unexpected <token>, expecting term" at that token, and so does
    [ParseStmt] unless the token opens a statement form of its own. *)
Theorem expression_must_start_with_term (lx : Lexer) :
  starts_term (GetKind (tk_ lx)) = false ->
  let error : forall A, Result (A * Lexer) := fun A =>
    ParserError (GetLocation (tk_ lx)) (Unexpected (tk_ lx) ExpectingTerm) in
  ParseExpr_ lx = error Expr
  /\ (statement_keyword (GetKind (tk_ lx)) = false ->
      ParseStmt_ lx = error Stmt).
Proof.
  intros H error. split.
  - unfold ParseExpr_, fuel_of. cbn [Nat.add].
    apply ParseExpr_rejects. exact H.
  - intros Hk. unfold ParseStmt_, fuel_of. cbn [Nat.add ParseStmt].
    unfold bind at 1. unfold Current at 1.
    assert (E : ParseExpr (S (2 + remaining lx)) lx = error Expr)
      by (apply ParseExpr_rejects; exact H).
    destruct (GetKind (tk_ lx)); try discriminate;
      unfold bind; cbn [Nat.add] in *; rewrite E; reflexivity.
Qed.

(** ** Chains of one level *)

Lemma Is_eq tk kind : GetKind tk = kind -> Is tk kind = true.
Proof.
  intros H. unfold Is. destruct (Kind_eq_dec (GetKind tk) kind); congruence.
Qed.

Lemma Is_neq tk kind : GetKind tk <> kind -> Is tk kind = false.
Proof.
  intros H. unfold Is. destruct (Kind_eq_dec (GetKind tk) kind); congruence.
Qed.

Lemma chain_next_head lev l links :
  all_at lev links = true ->
  chain_next lev (GetKind (tk_ (lexer_of l (chain_tokens links)))).
Proof.
  destruct links as [|x links]; intros H.
  - left. reflexivity.
  - right. cbn in *. apply andb_true_iff in H. destruct H as [H _].
    destruct (operator lev (op_kind x)); [discriminate | discriminate H].
Qed.

Ltac kinds :=
  repeat match goal with
         | H : chain_next _ _ |- _ => destruct H as [H | H]
         end;
  repeat match goal with
         | |- context [Is ?tk ?k] =>
             first [ rewrite (Is_neq tk k) by
                       (intros E; rewrite E in *; cbn in *; congruence)
                   | rewrite (Is_eq tk k) by assumption ]
         end.

Lemma ParseCallExpr_loop_stops PE fuel e lx :
  GetKind (tk_ lx) <> LPAREN ->
  ParseCallExpr_loop PE (S fuel) e lx = Ok (e, lx).
Proof.
  intros H. cbn [ParseCallExpr_loop]. unfold bind, Current.
  rewrite (Is_neq _ _ H). reflexivity.
Qed.

Lemma ParseMulDivExpr_loop_stops PE fuel e lx :
  operator Multiplicative (GetKind (tk_ lx)) = None ->
  ParseMulDivExpr_loop PE (S fuel) e lx = Ok (e, lx).
Proof.
  intros H. cbn [ParseMulDivExpr_loop]. unfold bind, Current, Is.
  destruct (GetKind (tk_ lx)); try discriminate; reflexivity.
Qed.

Lemma ParseAddSubExpr_loop_stops PE fuel e lx :
  operator Additive (GetKind (tk_ lx)) = None ->
  ParseAddSubExpr_loop PE (S fuel) e lx = Ok (e, lx).
Proof.
  intros H. cbn [ParseAddSubExpr_loop]. unfold bind, Current, Is.
  destruct (GetKind (tk_ lx)); try discriminate; reflexivity.
Qed.

Lemma ParseCompExpr_loop_stops PE fuel e lx :
  operator Comparison (GetKind (tk_ lx)) = None ->
  ParseCompExpr_loop PE (S fuel) e lx = Ok (e, lx).
Proof.
  intros H. cbn [ParseCompExpr_loop]. unfold bind, Current, Is.
  destruct (GetKind (tk_ lx)); try discriminate; reflexivity.
Qed.

(** An integer literal as an operand of each level. *)
Lemma ParseCallExpr_literal PE fuel l v rest :
  GetKind (tk_ (lexer_of l rest)) <> LPAREN ->
  ParseCallExpr PE (S fuel) (mkLexer (Int l v) rest) =
  Ok (IntExpr v, lexer_of l rest).
Proof.
  intros H. unfold ParseCallExpr. unfold bind at 1.
  change (ParseTermExpr PE (mkLexer (Int l v) rest))
    with (Ok (IntExpr v, lexer_of l rest) : Result (Expr * Lexer)).
  apply ParseCallExpr_loop_stops. exact H.
Qed.

Lemma chain_next_not_call lev k : chain_next lev k -> k <> LPAREN.
Proof.
  intros [-> | H] E; [discriminate|]. subst. destruct lev; apply H; reflexivity.
Qed.

Lemma chain_next_other lev lev' k :
  chain_next lev k -> lev <> lev' -> operator lev' k = None.
Proof.
  intros [-> | H] Hne; [destruct lev'; reflexivity|].
  destruct lev, lev', k; try reflexivity; try contradiction;
    exfalso; apply H; reflexivity.
Qed.

Lemma ParseMulDivExpr_literal PE fuel l v rest lev :
  chain_next lev (GetKind (tk_ (lexer_of l rest))) ->
  lev <> Multiplicative ->
  ParseMulDivExpr PE (S fuel) (mkLexer (Int l v) rest) =
  Ok (IntExpr v, lexer_of l rest).
Proof.
  intros H Hlev. unfold ParseMulDivExpr. unfold bind at 1.
  rewrite ParseCallExpr_literal by (eapply chain_next_not_call; exact H).
  apply ParseMulDivExpr_loop_stops. eapply chain_next_other; eassumption.
Qed.

Lemma ParseAddSubExpr_literal PE fuel l v rest :
  chain_next Comparison (GetKind (tk_ (lexer_of l rest))) ->
  ParseAddSubExpr PE (S fuel) (mkLexer (Int l v) rest) =
  Ok (IntExpr v, lexer_of l rest).
Proof.
  intros H. unfold ParseAddSubExpr. unfold bind at 1.
  rewrite (ParseMulDivExpr_literal PE fuel l v rest Comparison H)
    by discriminate.
  apply ParseAddSubExpr_loop_stops.
  eapply chain_next_other; [exact H | discriminate].
Qed.

Lemma last_cons {A} (xs : list A) : forall a d, last (a :: xs) d = last xs a.
Proof.
  induction xs as [|y xs IH]; intros a d; [reflexivity|].
  change (last (a :: y :: xs) d) with (last (y :: xs) d).
  rewrite (IH y d), (IH y a). reflexivity.
Qed.

Lemma chain_end_cons l x links :
  chain_end l (x :: links) = chain_end (lit_loc x) links.
Proof. unfold chain_end. cbn [map]. apply last_cons. Qed.

Lemma all_at_cons lev x links :
  all_at lev (x :: links) = true ->
  operator lev (op_kind x) <> None /\ all_at lev links = true.
Proof.
  unfold all_at. cbn [forallb]. intros H. apply andb_true_iff in H.
  destruct H as [H1 H2]. split; [|exact H2].
  destruct (operator lev (op_kind x)); [discriminate | discriminate H1].
Qed.

Lemma lexer_of_chain l x links :
  lexer_of l (chain_tokens (x :: links)) =
  mkLexer (Tok (op_loc x) (op_kind x))
          (Int (lit_loc x) (lit x) :: chain_tokens links).
Proof. reflexivity. Qed.

Lemma advance_operator lo k l v rest :
  advance (mkLexer (Tok lo k) (Int l v :: rest)) = mkLexer (Int l v) rest.
Proof. reflexivity. Qed.

Ltac decide_Is :=
  repeat match goal with
         | |- context [Is (Tok ?lo ?k) ?k'] =>
             let r := eval vm_compute in (Is (Tok lo k) k') in
             change (Is (Tok lo k) k') with r
         end;
  cbn [orb].

Ltac decide_Is_Int :=
  repeat match goal with
         | |- context [Is (Int ?lo ?v) ?k'] =>
             let r := eval vm_compute in (Is (Int lo v) k') in
             change (Is (Int lo v) k') with r
         end.

(** One iteration of each loop on an operator and an integer literal. *)
Lemma ParseMulDivExpr_loop_link PE fuel term lo k b l v rest :
  operator Multiplicative k = Some b ->
  GetKind (tk_ (lexer_of l rest)) <> LPAREN ->
  ParseMulDivExpr_loop PE (S (S fuel)) term
    (mkLexer (Tok lo k) (Int l v :: rest)) =
  ParseMulDivExpr_loop PE (S fuel) (BinaryExpr b term (IntExpr v))
    (lexer_of l rest).
Proof.
  intros Hop Hk. generalize (ParseCallExpr_literal PE fuel l v rest Hk).
  generalize (S fuel) as F. intros F Hlit.
  destruct k; try discriminate Hop; injection Hop as <-;
    cbn [ParseMulDivExpr_loop]; unfold bind at 1; unfold Current at 1;
    cbn [tk_]; decide_Is; cbv iota;
    unfold bind at 1; unfold Next at 1; rewrite advance_operator;
    cbv zeta; unfold bind at 1; rewrite Hlit; reflexivity.
Qed.

Lemma ParseAddSubExpr_loop_link PE fuel term lo k b l v rest :
  operator Additive k = Some b ->
  chain_next Additive (GetKind (tk_ (lexer_of l rest))) ->
  ParseAddSubExpr_loop PE (S (S fuel)) term
    (mkLexer (Tok lo k) (Int l v :: rest)) =
  ParseAddSubExpr_loop PE (S fuel) (BinaryExpr b term (IntExpr v))
    (lexer_of l rest).
Proof.
  intros Hop Hk.
  generalize (ParseMulDivExpr_literal PE fuel l v rest Additive Hk
                ltac:(discriminate)).
  generalize (S fuel) as F. intros F Hlit.
  destruct k; try discriminate Hop; injection Hop as <-;
    cbn [ParseAddSubExpr_loop]; unfold bind at 1; unfold Current at 1;
    cbn [tk_]; decide_Is; cbv iota;
    unfold bind at 1; unfold Next at 1; rewrite advance_operator;
    cbv zeta; unfold bind at 1; rewrite Hlit; reflexivity.
Qed.

Lemma ParseCompExpr_loop_link PE fuel term lo k b l v rest :
  operator Comparison k = Some b ->
  chain_next Comparison (GetKind (tk_ (lexer_of l rest))) ->
  ParseCompExpr_loop PE (S (S fuel)) term
    (mkLexer (Tok lo k) (Int l v :: rest)) =
  ParseCompExpr_loop PE (S fuel) (BinaryExpr b term (IntExpr v))
    (lexer_of l rest).
Proof.
  intros Hop Hk.
  generalize (ParseAddSubExpr_literal PE fuel l v rest Hk).
  generalize (S fuel) as F. intros F Hlit.
  destruct k; try discriminate Hop; injection Hop as <-;
    cbn [ParseCompExpr_loop]; unfold bind at 1; unfold Current at 1;
    cbn [tk_]; decide_Is; cbv iota;
    unfold bind at 1; unfold Next at 1; rewrite advance_operator;
    cbv zeta; unfold bind at 1; rewrite Hlit; reflexivity.
Qed.

Lemma chain_tree_cons lev term x links b :
  operator lev (op_kind x) = Some b ->
  chain_tree lev term (x :: links) =
  chain_tree lev (BinaryExpr b term (IntExpr (lit x))) links.
Proof. intros H. unfold chain_tree. cbn [fold_left]. rewrite H. reflexivity. Qed.

Lemma operator_some lev k :
  operator lev k <> None -> exists b, operator lev k = Some b.
Proof. destruct (operator lev k) as [b|]; [eauto | contradiction]. Qed.

Lemma multiplicative_chain PE links : forall fuel term l,
  (List.length links < fuel)%nat ->
  all_at Multiplicative links = true ->
  ParseMulDivExpr_loop PE fuel term (lexer_of l (chain_tokens links)) =
  Ok (chain_tree Multiplicative term links,
      mkLexer (End (chain_end l links)) []).
Proof.
  induction links as [|x links IH]; intros fuel term l Hf Hall.
  - destruct fuel as [|fuel]; [cbn in Hf; lia|].
    apply ParseMulDivExpr_loop_stops. reflexivity.
  - cbn [List.length] in Hf.
    destruct fuel as [|[|fuel]]; try lia.
    apply all_at_cons in Hall. destruct Hall as [Hx Hall].
    destruct (operator_some _ _ Hx) as [b Hb].
    rewrite lexer_of_chain, chain_end_cons, (chain_tree_cons _ _ _ _ _ Hb).
    rewrite (ParseMulDivExpr_loop_link PE fuel term _ _ b _ _ _ Hb)
      by (eapply chain_next_not_call; apply chain_next_head; exact Hall).
    apply IH; [lia | exact Hall].
Qed.

Lemma additive_chain PE links : forall fuel term l,
  (List.length links < fuel)%nat ->
  all_at Additive links = true ->
  ParseAddSubExpr_loop PE fuel term (lexer_of l (chain_tokens links)) =
  Ok (chain_tree Additive term links,
      mkLexer (End (chain_end l links)) []).
Proof.
  induction links as [|x links IH]; intros fuel term l Hf Hall.
  - destruct fuel as [|fuel]; [cbn in Hf; lia|].
    apply ParseAddSubExpr_loop_stops. reflexivity.
  - cbn [List.length] in Hf.
    destruct fuel as [|[|fuel]]; try lia.
    apply all_at_cons in Hall. destruct Hall as [Hx Hall].
    destruct (operator_some _ _ Hx) as [b Hb].
    rewrite lexer_of_chain, chain_end_cons, (chain_tree_cons _ _ _ _ _ Hb).
    rewrite (ParseAddSubExpr_loop_link PE fuel term _ _ b _ _ _ Hb)
      by (apply chain_next_head; exact Hall).
    apply IH; [lia | exact Hall].
Qed.

Lemma comparison_chain PE links : forall fuel term l,
  (List.length links < fuel)%nat ->
  all_at Comparison links = true ->
  ParseCompExpr_loop PE fuel term (lexer_of l (chain_tokens links)) =
  Ok (chain_tree Comparison term links,
      mkLexer (End (chain_end l links)) []).
Proof.
  induction links as [|x links IH]; intros fuel term l Hf Hall.
  - destruct fuel as [|fuel]; [cbn in Hf; lia|].
    apply ParseCompExpr_loop_stops. reflexivity.
  - cbn [List.length] in Hf.
    destruct fuel as [|[|fuel]]; try lia.
    apply all_at_cons in Hall. destruct Hall as [Hx Hall].
    destruct (operator_some _ _ Hx) as [b Hb].
    rewrite lexer_of_chain, chain_end_cons, (chain_tree_cons _ _ _ _ _ Hb).
    rewrite (ParseCompExpr_loop_link PE fuel term _ _ b _ _ _ Hb)
      by (apply chain_next_head; exact Hall).
    apply IH; [lia | exact Hall].
Qed.

Lemma length_chain_tokens links :
  (List.length links <= List.length (chain_tokens links))%nat.
Proof.
  unfold chain_tokens.
  induction links as [|x links IH]; cbn [flat_map link_tokens List.length app];
    lia.
Qed.

(** X19. Each binary level nests to the left, for chains of any length: an
    integer literal followed by any number of operators of one level, each
    with an integer literal after it, parses to the tree that combines the
    literals from the left ([8 - 3 - 2] is [SUB(SUB(8, 3), 2)] and
    [1 < 2 < 1] is [SM(SM(1, 2), 1)]), and the whole input is consumed. *)
Theorem chains_nest_to_the_left (lev : Level) (eof l0 : Location) (v0 : Z)
        (links : list Link) :
  all_at lev links = true ->
  ParseExpr_ (lexer_of eof (Int l0 v0 :: chain_tokens links)) =
  Ok (chain_tree lev (IntExpr v0) links,
      mkLexer (End (chain_end l0 links)) []).
Proof.
  intros Hall. unfold ParseExpr_, fuel_of.
  change (lexer_of eof (Int l0 v0 :: chain_tokens links))
    with (mkLexer (Int l0 v0) (chain_tokens links)).
  pose proof (length_chain_tokens links) as Hlen.
  assert (Hrem : (List.length links <
                  2 + remaining (mkLexer (Int l0 v0) (chain_tokens links)))%nat)
    by (unfold remaining; cbn [input]; destruct (Token_bool _); lia).
  revert Hrem.
  generalize (remaining (mkLexer (Int l0 v0) (chain_tokens links))) as r.
  intros r Hrem. cbn [Nat.add ParseExpr].
  pose proof (chain_next_head lev l0 links Hall) as Hnext.
  unfold ParseCompExpr. unfold bind at 1.
  destruct lev.
  - unfold ParseAddSubExpr. unfold bind at 1.
    unfold ParseMulDivExpr. unfold bind at 1.
    rewrite ParseCallExpr_literal
      by (eapply chain_next_not_call; exact Hnext).
    rewrite multiplicative_chain by (lia || exact Hall).
    rewrite ParseAddSubExpr_loop_stops by reflexivity.
    apply ParseCompExpr_loop_stops. reflexivity.
  - unfold ParseAddSubExpr. unfold bind at 1.
    rewrite (ParseMulDivExpr_literal _ _ _ _ _ Additive Hnext)
      by discriminate.
    rewrite additive_chain by (lia || exact Hall).
    apply ParseCompExpr_loop_stops. reflexivity.
  - rewrite (ParseAddSubExpr_literal _ _ _ _ _ Hnext).
    apply comparison_chain; [lia | exact Hall].
Qed.

(** ** Calls *)

Lemma ParseCallExpr_loop_S PE fuel callee :
  ParseCallExpr_loop PE (S fuel) callee =
  (tk <- Current ;;
   if Is tk LPAREN then
     args <- ParseCallExpr_args PE fuel [] ;;
     Check RPAREN ;;
     Next ;;
     ParseCallExpr_loop PE fuel (CallExpr callee args)
   else ret callee)%parse.
Proof. reflexivity. Qed.

Lemma ParseExpr_S fuel :
  ParseExpr (S fuel) = ParseCompExpr (ParseExpr fuel) fuel.
Proof. reflexivity. Qed.

Lemma ends_expression_operator k lev :
  ends_expression k = true -> operator lev k = None.
Proof. destruct k, lev; try discriminate; reflexivity. Qed.

Lemma ParseExpr_literal fuel l v rest :
  ends_expression (GetKind (tk_ (lexer_of l rest))) = true ->
  ParseExpr (S (S fuel)) (mkLexer (Int l v) rest) =
  Ok (IntExpr v, lexer_of l rest).
Proof.
  intros H. cbn [ParseExpr].
  unfold ParseCompExpr. unfold bind at 1.
  unfold ParseAddSubExpr. unfold bind at 1.
  unfold ParseMulDivExpr. unfold bind at 1.
  rewrite ParseCallExpr_literal
    by (intros E; rewrite E in H; discriminate H).
  rewrite ParseMulDivExpr_loop_stops by (apply ends_expression_operator, H).
  rewrite ParseAddSubExpr_loop_stops by (apply ends_expression_operator, H).
  apply ParseCompExpr_loop_stops. apply ends_expression_operator, H.
Qed.

Lemma length_args_tokens rest : forall a,
  (List.length rest < List.length (args_tokens a rest))%nat.
Proof.
  induction rest as [|b rest IH]; intros a; cbn [args_tokens List.length].
  - lia.
  - specialize (IH b). lia.
Qed.

Lemma ParseCallExpr_args_list F rest : forall fuel a acc lo k,
  (List.length rest < fuel)%nat ->
  ParseCallExpr_args (ParseExpr (S (S F))) fuel acc
    (mkLexer (Tok lo k) (args_tokens a rest)) =
  Ok (acc ++ map (fun x => IntExpr (arg_lit x)) (a :: rest),
      mkLexer (Tok (args_end a rest) RPAREN) []).
Proof.
  induction rest as [|b rest IH]; intros fuel a acc lo k Hf.
  - destruct fuel as [|fuel]; [cbn in Hf; lia|].
    cbn [ParseCallExpr_args args_tokens]. unfold bind at 1. unfold Next at 1.
    cbn [advance input tk_]. decide_Is_Int. cbv iota.
    unfold bind at 1. rewrite ParseExpr_literal by reflexivity.
    cbn [lexer_of]. unfold bind at 1. unfold Current at 1. cbn [tk_].
    decide_Is. cbn [negb]. cbv iota. reflexivity.
  - cbn [List.length] in Hf. destruct fuel as [|fuel]; [lia|].
    cbn [ParseCallExpr_args]. unfold bind at 1. unfold Next at 1.
    change (args_tokens a (b :: rest))
      with (Int (arg_loc a) (arg_lit a) ::
            Tok (sep_loc a) COMMA :: args_tokens b rest).
    cbn [advance input tk_]. decide_Is_Int. cbv iota.
    unfold bind at 1. rewrite ParseExpr_literal by reflexivity.
    cbn [lexer_of]. unfold bind at 1. unfold Current at 1. cbn [tk_].
    decide_Is. cbn [negb]. cbv iota.
    rewrite IH by lia.
    unfold args_end. rewrite (last_cons rest b a).
    cbn [map]. rewrite <- app_assoc. reflexivity.
Qed.

(** X20. A call lists its arguments in source order, however many there
    are: an identifier followed by a parenthesised, comma-separated list of
    one or more integer literals parses to the call of that identifier on
    exactly those literals, first to last, and the whole input is
    consumed. *)
Theorem call_arguments_in_order (eof lf lp : Location) (f : string)
        (a : Arg) (rest : list Arg) :
  ParseExpr_ (lexer_of eof (Ident lf f :: Tok lp LPAREN :: args_tokens a rest)) =
  Ok (CallExpr (RefExpr f) (map (fun x => IntExpr (arg_lit x)) (a :: rest)),
      mkLexer (End (args_end a rest)) []).
Proof.
  unfold ParseExpr_, fuel_of.
  change (lexer_of eof (Ident lf f :: Tok lp LPAREN :: args_tokens a rest))
    with (mkLexer (Ident lf f) (Tok lp LPAREN :: args_tokens a rest)).
  pose proof (length_args_tokens rest a) as Hlen.
  assert (Hrem : (List.length rest <
                  remaining (mkLexer (Ident lf f)
                                     (Tok lp LPAREN :: args_tokens a rest)))%nat)
    by (unfold remaining; cbn [input List.length]; lia).
  revert Hrem.
  generalize (remaining (mkLexer (Ident lf f)
                                 (Tok lp LPAREN :: args_tokens a rest))) as r.
  intros r Hrem. cbn [Nat.add]. rewrite ParseExpr_S.
  unfold ParseCompExpr. unfold bind at 1.
  unfold ParseAddSubExpr. unfold bind at 1.
  unfold ParseMulDivExpr. unfold bind at 1.
  unfold ParseCallExpr. unfold bind at 1.
  change (ParseTermExpr (ParseExpr (S (S (S r))))
            (mkLexer (Ident lf f) (Tok lp LPAREN :: args_tokens a rest)))
    with (Ok (RefExpr f, mkLexer (Tok lp LPAREN) (args_tokens a rest))
          : Result (Expr * Lexer)).
  cbv beta iota.
  rewrite (ParseCallExpr_loop_S _ (S (S r))).
  unfold bind at 1. unfold Current at 1.
  cbn [tk_]. decide_Is. cbv iota.
  unfold bind at 1.
  rewrite (ParseCallExpr_args_list (S r) rest (S (S r)) a [] lp LPAREN) by lia.
  cbn [app]. unfold bind at 1. rewrite Check_passes by reflexivity.
  unfold bind at 1. unfold Next at 1. cbn [advance input tk_ loc_ Tok].
  cbv zeta.
  rewrite ParseCallExpr_loop_stops by discriminate.
  rewrite ParseMulDivExpr_loop_stops by reflexivity.
  rewrite ParseAddSubExpr_loop_stops by reflexivity.
  apply ParseCompExpr_loop_stops. reflexivity.
Qed.

(** ** Statements *)

Lemma ParseStmt_S fuel :
  ParseStmt (S fuel) =
  (tk <- Current ;;
   match GetKind tk with
   | RETURN => ParseReturnStmt (ParseExpr fuel)
   | WHILE => ParseWhileStmt (ParseExpr fuel) (ParseStmt fuel)
   | LBRACE => ParseBlockStmt (ParseStmt fuel) fuel
   | IF => ParseIfStmt (ParseExpr fuel) (ParseStmt fuel)
   | _ => expr <- ParseExpr fuel ;; ret (ExprStmt expr)
   end)%parse.
Proof. reflexivity. Qed.

(** X21. The condition of a [while] and of an [if] must be parenthesised:
    when the token after the keyword is not an opening parenthesis, the
    statement fails with "unexpected <token>, expecting (" at that token. *)
Theorem condition_needs_parenthesis (lx : Lexer) :
  GetKind (tk_ lx) = WHILE \/ GetKind (tk_ lx) = IF ->
  GetKind (tk_ (advance lx)) <> LPAREN ->
  ParseStmt_ lx =
  ParserError (GetLocation (tk_ (advance lx)))
              (Unexpected (tk_ (advance lx)) (ExpectingKind LPAREN)).
Proof.
  intros Hk Hn. unfold ParseStmt_, fuel_of. cbn [Nat.add ParseStmt].
  unfold bind at 1. unfold Current at 1.
  destruct Hk as [Hk | Hk]; rewrite Hk.
  - unfold ParseWhileStmt. unfold bind at 1.
    rewrite (Check_passes _ _ Hk). unfold bind at 1. unfold Expect.
    unfold bind at 1. unfold Next at 1. cbv zeta.
    rewrite (Check_fails _ _ Hn). reflexivity.
  - unfold ParseIfStmt. unfold bind at 1.
    rewrite (Check_passes _ _ Hk). unfold bind at 1. unfold Expect.
    unfold bind at 1. unfold Next at 1. cbv zeta.
    rewrite (Check_fails _ _ Hn). reflexivity.
Qed.

Ltac invert_bind H :=
  repeat match type of H with
         | bind ?m ?k ?lx = Ok _ =>
             unfold bind in H at 1;
             let r := fresh "r" in
             destruct (m lx) as [[? ?]| | |] eqn:r;
             [| discriminate H | discriminate H | discriminate H]
         | (if ?b then _ else _) ?lx = Ok _ => destruct b
         end.

(** X22. The first token decides the form of a statement: a statement that
    parses is a [ReturnStmt], [WhileStmt], [IfStmt] or [BlockStmt] exactly
    when it starts with [return], [while], [if] or an opening brace, and
    otherwise it is an expression statement that starts with an
    identifier, an integer literal or an opening parenthesis. *)
Theorem statement_form_follows_first_token (lx lx' : Lexer) (s : Stmt) :
  ParseStmt_ lx = Ok (s, lx') ->
  built_from (GetKind (tk_ lx)) s = true.
Proof.
  unfold ParseStmt_, fuel_of. cbn [Nat.add].
  generalize (S (S (remaining lx))) as fuel. intros fuel.
  rewrite ParseStmt_S.
  unfold bind at 1. unfold Current at 1. intros H.
  destruct (GetKind (tk_ lx)) eqn:Hk;
    try (unfold ParseReturnStmt in H);
    try (unfold ParseWhileStmt in H);
    try (unfold ParseIfStmt in H);
    try (unfold ParseBlockStmt in H);
    invert_bind H;
    try (injection H as <- _; reflexivity);
    exfalso;
    match goal with
    | E : ParseExpr (S fuel) lx = Ok _ |- _ =>
        rewrite ParseExpr_rejects in E by (rewrite Hk; reflexivity);
        discriminate E
    end.
Qed.

(** ** Function items *)


Ltac decide_Is_Ident :=
  repeat match goal with
         | |- context [Is (Ident ?lo ?v) ?k'] =>
             let r := eval vm_compute in (Is (Ident lo v) k') in
             change (Is (Ident lo v) k') with r
         end.

Lemma ParseModule_args_list rest : forall fuel p acc lo k tail,
  (List.length rest < fuel)%nat ->
  ParseModule_args fuel acc (mkLexer (Tok lo k) (params_tokens p rest tail)) =
  Ok (acc ++ signature (p :: rest),
      mkLexer (Tok (after_loc (last rest p)) RPAREN) tail).
Proof.
  induction rest as [|q rest IH]; intros fuel p acc lo k tail Hf.
  - destruct fuel as [|fuel]; [cbn in Hf; lia|]. reflexivity.
  - cbn [List.length] in Hf. destruct fuel as [|fuel]; [lia|].
    change (params_tokens p (q :: rest) tail)
      with (Ident (name_loc p) (param_name p) ::
            Tok (colon_loc p) COLON ::
            Ident (type_loc p) (param_type p) ::
            Tok (after_loc p) COMMA :: params_tokens q rest tail).
    transitivity
      (ParseModule_args fuel (acc ++ [(param_name p, param_type p)])
         (mkLexer (Tok (after_loc p) COMMA) (params_tokens q rest tail))).
    + reflexivity.
    + rewrite IH by lia. rewrite (last_cons rest q p).
      unfold signature. cbn [map]. rewrite <- app_assoc. reflexivity.
Qed.

Lemma ParseModule_loop_S fuel body :
  ParseModule_loop (S fuel) body =
  (tk <- Current ;;
   if Token_bool tk then
     if Is tk FUNC then
       tkn <- Expect IDENT ;;
       name <- GetIdent tkn ;;
       Expect LPAREN ;;
       args <- ParseModule_args fuel [] ;;
       Check RPAREN ;;
       Expect COLON ;;
       tkt <- Expect IDENT ;;
       type <- GetIdent tkt ;;
       nx <- Next ;;
       if Is nx EQUAL then
         tks <- Expect STRING ;;
         primitive <- GetString tks ;;
         Next ;;
         ParseModule_loop fuel
           (body ++ [ProtoDecl name args type primitive])
       else
         block <- ParseBlockStmt (ParseStmt fuel) fuel ;;
         ParseModule_loop fuel (body ++ [FuncDecl name args type block])
     else
       s <- ParseStmt fuel ;;
       ParseModule_loop fuel (body ++ [TopStmt s])
   else ret body)%parse.
Proof. reflexivity. Qed.

Lemma ParseModule_args_param_list fuel rp ps lo tail :
  (List.length ps <= fuel)%nat ->
  exists l,
    ParseModule_args (S fuel) []
      (mkLexer (Tok lo LPAREN) (param_list_tokens rp ps tail)) =
    Ok (signature ps, mkLexer (Tok l RPAREN) tail).
Proof.
  intros Hf. destruct ps as [|p rest].
  - exists rp. reflexivity.
  - exists (after_loc (last rest p)). cbn [param_list_tokens].
    rewrite ParseModule_args_list by (cbn in Hf; lia). reflexivity.
Qed.

Lemma length_param_list_tokens rp ps tail :
  (List.length ps <= List.length (param_list_tokens rp ps tail))%nat.
Proof.
  destruct ps as [|p rest]; [cbn; lia|].
  cbn [param_list_tokens]. revert p.
  induction rest as [|q rest IH]; intros p;
    cbn [params_tokens List.length]; [lia|].
  specialize (IH q). cbn [List.length] in IH. lia.
Qed.

(** X24. A function item keeps its name, its parameters in source order and
    its return type, however many parameters there are: with
    [= "primitive"] after the type it is a native declaration of that
    primitive, with a block it is a function declaration with that body
    (here the empty block), and it is the only item of the module. *)
Theorem function_item_is_kept
        (eof l0 lf lp rp lc lt le ls lb : Location)
        (f ty prim : string) (ps : list Param) :
  let header tail :=
    lexer_of eof (Tok l0 FUNC :: Ident lf f :: Tok lp LPAREN ::
                  param_list_tokens rp ps
                    (Tok lc COLON :: Ident lt ty :: tail)) in
  ParseModule (header [Tok le EQUAL; String ls prim]) =
    Ok (mkModule [ProtoDecl f (signature ps) ty prim], mkLexer (End ls) [])
  /\ ParseModule (header [Tok le LBRACE; Tok lb RBRACE]) =
     Ok (mkModule [FuncDecl f (signature ps) ty (BlockStmt [])],
         mkLexer (End lb) []).
Proof.
  intros header.
  pose proof (length_param_list_tokens rp ps) as Hlen.
  split.
  - unfold header, ParseModule, ParseModule_fuel, fuel_of.
    cbn [lexer_of].
    specialize (Hlen [Tok lc COLON; Ident lt ty; Tok le EQUAL; String ls prim]).
    match goal with
    | |- context [remaining ?lx] =>
        assert (Hrem : (List.length ps < remaining lx)%nat)
          by (unfold remaining; cbn [input List.length]; lia);
        revert Hrem; generalize (remaining lx)
    end.
    intros r Hrem. cbn [Nat.add]. unfold bind at 1.
    rewrite ParseModule_loop_S.
    destruct (ParseModule_args_param_list (S (S r)) rp ps lp
                [Tok lc COLON; Ident lt ty; Tok le EQUAL; String ls prim]
                ltac:(lia)) as [l Hargs].
    unfold bind at 1. unfold Current at 1. cbn [tk_].
    change (Token_bool (Tok l0 FUNC)) with true. cbv iota.
    decide_Is. cbv iota.
    unfold bind at 1. unfold Expect at 1. unfold bind at 1.
    unfold Next at 1. cbn [advance input tk_]. cbv zeta.
    rewrite Check_passes by reflexivity. cbn [tk_].
    unfold bind at 1. change (GetIdent (Ident lf f)) with (@ret string f).
    unfold ret at 1.
    unfold bind at 1. unfold Expect at 1. unfold bind at 1.
    unfold Next at 1. cbn [advance input tk_]. cbv zeta.
    rewrite Check_passes by reflexivity.
    unfold bind at 1. rewrite Hargs. reflexivity.
  - unfold header, ParseModule, ParseModule_fuel, fuel_of.
    cbn [lexer_of].
    specialize (Hlen [Tok lc COLON; Ident lt ty; Tok le LBRACE; Tok lb RBRACE]).
    match goal with
    | |- context [remaining ?lx] =>
        assert (Hrem : (List.length ps < remaining lx)%nat)
          by (unfold remaining; cbn [input List.length]; lia);
        revert Hrem; generalize (remaining lx)
    end.
    intros r Hrem. cbn [Nat.add]. unfold bind at 1.
    rewrite ParseModule_loop_S.
    destruct (ParseModule_args_param_list (S (S r)) rp ps lp
                [Tok lc COLON; Ident lt ty; Tok le LBRACE; Tok lb RBRACE]
                ltac:(lia)) as [l Hargs].
    unfold bind at 1. unfold Current at 1. cbn [tk_].
    change (Token_bool (Tok l0 FUNC)) with true. cbv iota.
    decide_Is. cbv iota.
    unfold bind at 1. unfold Expect at 1. unfold bind at 1.
    unfold Next at 1. cbn [advance input tk_]. cbv zeta.
    rewrite Check_passes by reflexivity. cbn [tk_].
    unfold bind at 1. change (GetIdent (Ident lf f)) with (@ret string f).
    unfold ret at 1.
    unfold bind at 1. unfold Expect at 1. unfold bind at 1.
    unfold Next at 1. cbn [advance input tk_]. cbv zeta.
    rewrite Check_passes by reflexivity.
    unfold bind at 1. rewrite Hargs. reflexivity.
Qed.

(** ** Blocks of any length *)

Lemma ParseStmt_literal fuel l v rest :
  ends_expression (GetKind (tk_ (lexer_of l rest))) = true ->
  ParseStmt (S (S (S fuel))) (mkLexer (Int l v) rest) =
  Ok (ExprStmt (IntExpr v), lexer_of l rest).
Proof.
  intros H. cbn [ParseStmt]. unfold bind at 1. unfold Current at 1.
  cbn [tk_ GetKind Int kind_]. unfold bind at 1.
  rewrite ParseExpr_literal by exact H. reflexivity.
Qed.

Lemma ParseBlockStmt_loop_list F rest : forall fuel a acc lo k,
  (List.length rest < fuel)%nat ->
  ParseBlockStmt_loop (ParseStmt (S (S (S F)))) fuel acc
    (mkLexer (Tok lo k) (stmts_tokens a rest)) =
  Ok (acc ++ map (fun x => ExprStmt (IntExpr (arg_lit x))) (a :: rest),
      mkLexer (Tok (args_end a rest) RBRACE) []).
Proof.
  induction rest as [|b rest IH]; intros fuel a acc lo k Hf.
  - destruct fuel as [|fuel]; [cbn in Hf; lia|].
    cbn [ParseBlockStmt_loop stmts_tokens]. unfold bind at 1.
    unfold Next at 1. cbn [advance input tk_]. decide_Is_Int. cbv iota.
    unfold bind at 1. rewrite ParseStmt_literal by reflexivity.
    cbn [lexer_of]. unfold bind at 1. unfold Current at 1. cbn [tk_].
    decide_Is. cbn [negb]. cbv iota. reflexivity.
  - cbn [List.length] in Hf. destruct fuel as [|fuel]; [lia|].
    cbn [ParseBlockStmt_loop]. unfold bind at 1. unfold Next at 1.
    change (stmts_tokens a (b :: rest))
      with (Int (arg_loc a) (arg_lit a) ::
            Tok (sep_loc a) SEMI :: stmts_tokens b rest).
    cbn [advance input tk_]. decide_Is_Int. cbv iota.
    unfold bind at 1. rewrite ParseStmt_literal by reflexivity.
    cbn [lexer_of]. unfold bind at 1. unfold Current at 1. cbn [tk_].
    decide_Is. cbn [negb]. cbv iota.
    rewrite IH by lia.
    unfold args_end. rewrite (last_cons rest b a).
    cbn [map]. rewrite <- app_assoc. reflexivity.
Qed.

Lemma length_stmts_tokens rest : forall a,
  (List.length rest < List.length (stmts_tokens a rest))%nat.
Proof.
  induction rest as [|b rest IH]; intros a; cbn [stmts_tokens List.length].
  - lia.
  - specialize (IH b). lia.
Qed.

(** X25. A block lists its statements in source order, however many there
    are: an opening brace, one or more integer-literal statements separated
    by semicolons and the closing brace parse to the block of exactly those
    statements, first to last, and the whole input is consumed. *)
Theorem block_statements_in_order (eof lb : Location)
        (a : Arg) (rest : list Arg) :
  ParseStmt_ (lexer_of eof (Tok lb LBRACE :: stmts_tokens a rest)) =
  Ok (BlockStmt (map (fun x => ExprStmt (IntExpr (arg_lit x))) (a :: rest)),
      mkLexer (End (args_end a rest)) []).
Proof.
  unfold ParseStmt_, fuel_of.
  change (lexer_of eof (Tok lb LBRACE :: stmts_tokens a rest))
    with (mkLexer (Tok lb LBRACE) (stmts_tokens a rest)).
  pose proof (length_stmts_tokens rest a) as Hlen.
  assert (Hrem : (List.length rest <
                  remaining (mkLexer (Tok lb LBRACE)
                                     (stmts_tokens a rest)))%nat)
    by (unfold remaining; cbn [input List.length]; lia).
  revert Hrem.
  generalize (remaining (mkLexer (Tok lb LBRACE) (stmts_tokens a rest))) as r.
  intros r Hrem. cbn [Nat.add]. rewrite ParseStmt_S.
  unfold bind at 1. unfold Current at 1. cbn [tk_ GetKind Tok kind_].
  unfold ParseBlockStmt. unfold bind at 1.
  rewrite Check_passes by reflexivity. unfold bind at 1.
  rewrite (ParseBlockStmt_loop_list r rest (S (S (S r))) a [] lb LBRACE) by lia.
  reflexivity.
Qed.

(** ** Nested conditionals *)

Lemma ParseExpr_literal_ge fuel l v rest :
  (2 <= fuel)%nat ->
  ends_expression (GetKind (tk_ (lexer_of l rest))) = true ->
  ParseExpr fuel (mkLexer (Int l v) rest) = Ok (IntExpr v, lexer_of l rest).
Proof.
  intros Hf H. destruct fuel as [|[|fuel]]; try lia.
  apply ParseExpr_literal. exact H.
Qed.

Lemma ParseIfStmt_head PE PS g rest :
  PE (mkLexer (Int (guard_loc g) (guard_lit g))
              (Tok (close_loc g) RPAREN :: rest)) =
    Ok (IntExpr (guard_lit g), mkLexer (Tok (close_loc g) RPAREN) rest) ->
  ParseIfStmt PE PS
    (mkLexer (Tok (if_loc g) IF)
       (Tok (open_loc g) LPAREN :: Int (guard_loc g) (guard_lit g) ::
        Tok (close_loc g) RPAREN :: rest)) =
  (stmt <- PS ;;
   tk <- Current ;;
   if Is tk ELSE then
     Next ;;
     elseStmt <- PS ;;
     ret (IfStmt (IntExpr (guard_lit g)) stmt (Some elseStmt))
   else ret (IfStmt (IntExpr (guard_lit g)) stmt None))%parse
    (lexer_of (close_loc g) rest).
Proof.
  intros HPE. unfold ParseIfStmt.
  unfold bind at 1. rewrite Check_passes by reflexivity.
  unfold bind at 1. unfold Expect at 1. unfold bind at 1.
  unfold Next at 1. cbn [advance input tk_]. cbv zeta.
  rewrite Check_passes by reflexivity.
  unfold bind at 1. unfold Next at 1. cbn [advance input tk_]. cbv zeta.
  unfold bind at 1. rewrite HPE.
  unfold bind at 1. rewrite Check_passes by reflexivity.
  unfold bind at 1. unfold Next at 1. reflexivity.
Qed.

Lemma innermost_if fuel g lx x le ly y l :
  (4 <= fuel)%nat ->
  ParseStmt fuel
    (lexer_of l (guard_tokens g ++ [Int lx x; Tok le ELSE; Int ly y])) =
  Ok (IfStmt (IntExpr (guard_lit g)) (ExprStmt (IntExpr x))
             (Some (ExprStmt (IntExpr y))),
      mkLexer (End ly) []).
Proof.
  intros Hf. destruct fuel as [|[|[|[|fuel]]]]; try lia.
  rewrite ParseStmt_S.
  cbn [guard_tokens app lexer_of].
  unfold bind at 1. unfold Current at 1. cbn [tk_ GetKind Tok kind_].
  rewrite ParseIfStmt_head by (apply ParseExpr_literal_ge; [lia|reflexivity]).
  cbn [lexer_of]. unfold bind at 1.
  rewrite ParseStmt_literal by reflexivity.
  cbn [lexer_of]. unfold bind at 1. unfold Current at 1. cbn [tk_].
  decide_Is. cbv iota. unfold bind at 1. unfold Next at 1.
  cbn [advance input tk_]. cbv zeta. unfold bind at 1.
  rewrite ParseStmt_literal by reflexivity. reflexivity.
Qed.

Lemma enclosing_ifs outer : forall fuel g lx x le ly y l,
  (4 <= fuel)%nat ->
  ParseStmt (List.length outer + fuel)
    (lexer_of l (nested_if_tokens outer g lx x le ly y)) =
  Ok (nested_if_tree outer g x y, mkLexer (End ly) []).
Proof.
  induction outer as [|h outer IH]; intros fuel g lx x le ly y l Hf.
  - apply innermost_if. exact Hf.
  - cbn [List.length Nat.add]. rewrite ParseStmt_S.
    unfold nested_if_tokens. cbn [flat_map guard_tokens app lexer_of].
    unfold bind at 1. unfold Current at 1. cbn [tk_ GetKind Tok kind_].
    rewrite ParseIfStmt_head by (apply ParseExpr_literal_ge; [lia|reflexivity]).
    unfold bind at 1.
    change (flat_map guard_tokens outer ++
            Tok (if_loc g) IF :: Tok (open_loc g) LPAREN ::
            Int (guard_loc g) (guard_lit g) :: Tok (close_loc g) RPAREN ::
            [Int lx x; Tok le ELSE; Int ly y])
      with (nested_if_tokens outer g lx x le ly y).
    rewrite (IH fuel g lx x le ly y (close_loc h) Hf).
    unfold bind at 1. unfold Current at 1. cbn [tk_].
    change (Is (End ly) ELSE) with false. cbv iota. reflexivity.
Qed.

Lemma remaining_lexer_of eof toks :
  (List.length toks <= remaining (lexer_of eof toks) + 1)%nat.
Proof.
  unfold remaining. destruct toks as [|t ts]; cbn [lexer_of input List.length];
    lia.
Qed.

Lemma length_nested_if_tokens outer g lx x le ly y :
  (List.length outer <
   List.length (nested_if_tokens outer g lx x le ly y))%nat.
Proof.
  unfold nested_if_tokens. rewrite length_app.
  assert (H : (List.length outer <=
               List.length (flat_map guard_tokens outer))%nat).
  { induction outer as [|h outer IH]; simpl; lia. }
  rewrite length_app. simpl. lia.
Qed.

(** X26. An [else] belongs to the nearest [if], at any depth of nesting: in
    [if (g1) ... if (gn) if (g) x else y] the innermost [if] takes the else
    branch and none of the enclosing ones has one. *)
Theorem else_binds_to_innermost_if (eof : Location)
        (outer : list Guard) (inner : Guard)
        (lx le ly : Location) (x y : Z) :
  ParseStmt_ (lexer_of eof (nested_if_tokens outer inner lx x le ly y)) =
  Ok (nested_if_tree outer inner x y, mkLexer (End ly) []).
Proof.
  unfold ParseStmt_, fuel_of.
  pose proof (length_nested_if_tokens outer inner lx x le ly y) as Hlen.
  pose proof (remaining_lexer_of eof
                (nested_if_tokens outer inner lx x le ly y)) as Hrem.
  assert (Hr : (List.length outer <=
                remaining (lexer_of eof
                   (nested_if_tokens outer inner lx x le ly y)))%nat) by lia.
  clear Hrem Hlen. rename Hr into Hrem.
  revert Hrem.
  generalize (remaining (lexer_of eof
                (nested_if_tokens outer inner lx x le ly y))) as r.
  intros r Hrem.
  replace (4 + r)%nat
    with (List.length outer + (4 + (r - List.length outer)))%nat by lia.
  apply enclosing_ifs. lia.
Qed.

(** ** Two operators *)

(** X27. The precedence of any two binary operators: in [a op1 b op2 c]
    the second operator takes [b] and [c] first exactly when its level binds
    strictly tighter than the level of the first; otherwise, on equal
    levels too, the first operator takes [a] and [b] first. *)
Theorem precedence_of_two_operators
        (eof l1 l2 l3 l4 l5 : Location) (a b c : Z)
        (k1 k2 : Kind) (lev1 lev2 : Level) (b1 b2 : BinaryKind) :
  operator lev1 k1 = Some b1 ->
  operator lev2 k2 = Some b2 ->
  ParseExpr_ (lexer_of eof [Int l1 a; Tok l2 k1; Int l3 b; Tok l4 k2;
                            Int l5 c]) =
  Ok (if tighter lev2 lev1
      then BinaryExpr b1 (IntExpr a) (BinaryExpr b2 (IntExpr b) (IntExpr c))
      else BinaryExpr b2 (BinaryExpr b1 (IntExpr a) (IntExpr b)) (IntExpr c),
      mkLexer (End l5) []).
Proof.
  intros H1 H2.
  destruct lev1, k1; try discriminate H1; injection H1 as <-;
    destruct lev2, k2; try discriminate H2; injection H2 as <-;
    reflexivity.
Qed.

(** X28. Parentheses override the precedence and leave no node of their
    own: for any two binary operators, [(a op1 b) op2 c] groups [a] and [b]
    first and [a op1 (b op2 c)] groups [b] and [c] first, whatever the
    levels of the operators. *)
Theorem parentheses_override_precedence
        (eof l1 l2 l3 l4 l5 lo lc : Location) (a b c : Z)
        (k1 k2 : Kind) (lev1 lev2 : Level) (b1 b2 : BinaryKind) :
  operator lev1 k1 = Some b1 ->
  operator lev2 k2 = Some b2 ->
  ParseExpr_ (lexer_of eof [Tok lo LPAREN; Int l1 a; Tok l2 k1; Int l3 b;
                            Tok lc RPAREN; Tok l4 k2; Int l5 c]) =
    Ok (BinaryExpr b2 (BinaryExpr b1 (IntExpr a) (IntExpr b)) (IntExpr c),
        mkLexer (End l5) [])
  /\ ParseExpr_ (lexer_of eof [Int l1 a; Tok l2 k1; Tok lo LPAREN; Int l3 b;
                               Tok l4 k2; Int l5 c; Tok lc RPAREN]) =
     Ok (BinaryExpr b1 (IntExpr a) (BinaryExpr b2 (IntExpr b) (IntExpr c)),
         mkLexer (End lc) []).
Proof.
  intros H1 H2.
  destruct lev1, k1; try discriminate H1; injection H1 as <-;
    destruct lev2, k2; try discriminate H2; injection H2 as <-;
    split; reflexivity.
Qed.

(** ** Instances *)

Lemma successful_parse_consumes_witness :
  (remaining (mkLexer (End (Sources.col 1)) []) < remaining Sources.just_x)%nat.
Proof.
  exact (proj1 (successful_parse_consumes Sources.just_x)
               (RefExpr "x") (mkLexer (End (Sources.col 1)) []) eq_refl).
Defined.

Lemma ParseModule_consumes_all_witness :
  GetKind (tk_ (mkLexer (End (Sources.col 1)) [])) = END.
Proof.
  exact (ParseModule_consumes_all Sources.just_x
           (mkLexer (End (Sources.col 1)) [])
           (mkModule [TopStmt (ExprStmt (RefExpr "x"))]) eq_refl).
Defined.

Lemma expression_must_start_with_term_witness :
  ParseExpr_ Sources.minus_one =
  ParserError (Sources.col 1)
    (Unexpected (Tok (Sources.col 1) MINUS) ExpectingTerm).
Proof.
  exact (proj1 (expression_must_start_with_term Sources.minus_one eq_refl)).
Defined.

Lemma chains_nest_to_the_left_witness :
  ParseExpr_ (lexer_of (Sources.col 1)
                (Int (Sources.col 1) 8 :: chain_tokens Sources.minus_3_minus_2)) =
  Ok (BinaryExpr SUB (BinaryExpr SUB (IntExpr 8) (IntExpr 3)) (IntExpr 2),
      mkLexer (End (Sources.col 9)) []).
Proof.
  exact (chains_nest_to_the_left Additive (Sources.col 1) (Sources.col 1) 8
           Sources.minus_3_minus_2 eq_refl).
Defined.

Lemma condition_needs_parenthesis_witness :
  ParseStmt_ Sources.while_x =
  ParserError (Sources.col 7)
    (Unexpected (Ident (Sources.col 7) "x") (ExpectingKind LPAREN)).
Proof.
  apply (condition_needs_parenthesis Sources.while_x);
    [left; reflexivity | discriminate].
Defined.

Lemma statement_form_follows_first_token_witness :
  built_from RETURN (ReturnStmt (IntExpr 1)) = true.
Proof.
  exact (statement_form_follows_first_token Sources.return_1
           (mkLexer (End (Sources.col 8)) []) (ReturnStmt (IntExpr 1))
           eq_refl).
Defined.


Lemma precedence_of_two_operators_witness :
  ParseExpr_ Sources.one_less_two_plus_three =
  Ok (BinaryExpr SM (IntExpr 1) (BinaryExpr ADD (IntExpr 2) (IntExpr 3)),
      mkLexer (End (Sources.col 9)) []).
Proof.
  exact (precedence_of_two_operators (Sources.col 1) (Sources.col 1)
           (Sources.col 3) (Sources.col 5) (Sources.col 7) (Sources.col 9)
           1 2 3 SMALLER PLUS Comparison Additive SM ADD eq_refl eq_refl).
Defined.

Lemma parentheses_override_precedence_witness :
  ParseExpr_ Sources.grouped_left =
  Ok (BinaryExpr MUL (BinaryExpr SUB (IntExpr 1) (IntExpr 2)) (IntExpr 3),
      mkLexer (End (Sources.col 11)) []).
Proof.
  exact (proj1 (parentheses_override_precedence (Sources.col 1)
           (Sources.col 2) (Sources.col 4) (Sources.col 6) (Sources.col 9)
           (Sources.col 11) (Sources.col 1) (Sources.col 7)
           1 2 3 MINUS MULTIPLY Additive Multiplicative SUB MUL
           eq_refl eq_refl)).
Defined.

End ParseFacts.
